(** * Hierarchical attention network: batching, repacking and attention

    A shallow embedding of the notebook [hierarchical_attention.ipynb]:
    [get_sequence_lengths], [get_nonzero_sequences],
    [SequenceClassifierAttention] and [HierarchicalAttentionNetwork].

    Tensors are nested lists: a token batch is [list (list (list Z))]
    (documents, sentence slots, words), a batch of feature vectors is a list
    of rows.  Python exceptions are carried by the [res] monad.  The scalar
    type of the real-valued tensors is a parameter ([ScalarOps]); the
    instance over [R] reads every floating-point operation as the exact
    real operation. *)

From Stdlib Require Import ZArith List Lia Reals Lra Permutation Sorted String.
From stdpp Require Import base list sorting.
Import ListNotations.

Set Default Proof Using "Type".

(** ** Exceptions *)

Inductive exn : Type :=
| IndexError
| ValueError
| RuntimeError
| AttributeError.

Inductive res (A : Type) : Type :=
| Ok (a : A)
| Raise (e : exn).

Arguments Ok {A} a.
Arguments Raise {A} e.

Definition bind {A B : Type} (c : res A) (k : A -> res B) : res B :=
  match c with
  | Ok a => k a
  | Raise e => Raise e
  end.

Notation "x <- c ;; k" := (bind c (fun x => k))
  (at level 100, c at next level, right associativity).

Definition is_ok {A : Type} (c : res A) : bool :=
  match c with Ok _ => true | Raise _ => false end.

(** [for x in xs: f x], stopping at the first exception. *)
Fixpoint mapM_res {A B : Type} (f : A -> res B) (xs : list A) : res (list B) :=
  match xs with
  | [] => Ok []
  | x :: xs' => y <- f x ;; ys <- mapM_res f xs' ;; Ok (y :: ys)
  end.

(** ** get_sequence_lengths *)

(** The loop of [get_seq_len]: [n] is the counter of [enumerate(sequence, 1)]
    and [seq_len] the running result; the padding value breaks the loop. *)
Fixpoint get_seq_len_loop (padding_value : Z) (sequence : list Z)
    (n seq_len : nat) : nat :=
  match sequence with
  | [] => seq_len
  | item :: rest =>
      if Z.eqb item padding_value then seq_len
      else get_seq_len_loop padding_value rest (S n) n
  end.

Definition get_seq_len (padding_value : Z) (sequence : list Z) : nat :=
  get_seq_len_loop padding_value sequence 1 0.

(** The lengths are counts of positions, so the integer array that holds
    them is a list of naturals. *)
Definition get_sequence_lengths (sequences : list (list Z))
    (padding_value : Z) : list nat :=
  map (get_seq_len padding_value) sequences.

(** The reference scan in the words of the specification: the position index
    of the first occurrence of the sentinel, or the row length if none. *)
Fixpoint first_sentinel_index (padding_value : Z) (row : list Z) : nat :=
  match row with
  | [] => 0
  | item :: rest =>
      if Z.eqb item padding_value then 0
      else S (first_sentinel_index padding_value rest)
  end.

(** ** Tensor primitives of the library

    The operations of torch that the notebook calls, on the list model. *)

Module torch.

(** [torch.nonzero(lengths).view(-1)]: the positions of the non-zero
    entries, in increasing position order. *)
Fixpoint nonzero_from (i : nat) (lengths : list nat) : list nat :=
  match lengths with
  | [] => []
  | l :: ls =>
      if Nat.eqb l 0 then nonzero_from (S i) ls
      else i :: nonzero_from (S i) ls
  end.

Definition nonzero (lengths : list nat) : list nat := nonzero_from 0 lengths.

(** [t.dim()] of a one-dimensional tensor: a tensor made by [view(-1)] has
    one axis whatever the number of its elements. *)
Definition dim1 {A : Type} (t : list A) : nat := 1.

(** [t[indexes]] on the first axis; a position outside the tensor raises. *)
Definition index_select {A : Type} (t : list A) (indexes : list nat)
    : res (list A) :=
  mapM_res (fun i => match t !! i with
                     | Some x => Ok x
                     | None => Raise IndexError
                     end) indexes.

(** Insertion of a (value, position) pair in a list ordered by [before]. *)
Fixpoint insert_pair (before : nat -> nat -> bool) (x : nat * nat)
    (l : list (nat * nat)) : list (nat * nat) :=
  match l with
  | [] => [x]
  | y :: l' =>
      if before (fst x) (fst y) then x :: y :: l'
      else y :: insert_pair before x l'
  end.

Definition sort_pairs (before : nat -> nat -> bool) (v : list nat)
    : list (nat * nat) :=
  foldr (insert_pair before) [] (combine v (seq 0 (length v))).

(** The order of the sort: by decreasing or by increasing value; equal
    values keep their order. *)
Definition before_of (descending : bool) : nat -> nat -> bool :=
  if descending then (fun a b => Nat.leb b a) else (fun a b => Nat.leb a b).

(** [torch.sort(v, descending=...)]: the sorted values and, for each, the
    position it came from.  The library leaves the order of equal values
    open; here they keep their order.  What is proved about the encoding
    uses only that the positions are a permutation and the values sorted. *)
Definition sort (v : list nat) (descending : bool) : list nat * list nat :=
  let ps := sort_pairs (before_of descending) v in
  (map fst ps, map snd ps).

(** Exchange of the first two axes. *)
Definition transpose {A : Type} (t : list (list A)) : list (list A) :=
  map (fun j => omap (fun row => row !! j) t)
      (seq 0 (length (hd [] t))).

(** [torch.cat(ts, dim=1)] of slices that each carry one step per row:
    row [b] of the result lists the [b]-th row of every slice.  An empty
    list of tensors is rejected. *)
Definition cat_dim1 {A : Type} (ts : list (list A)) : res (list (list A)) :=
  match ts with
  | [] => Raise RuntimeError
  | _ :: _ => Ok (transpose ts)
  end.

(** [torch.cat(ts)] of one-row tensors along the first axis. *)
Definition cat_rows {A : Type} (ts : list A) : res (list A) :=
  match ts with
  | [] => Raise RuntimeError
  | _ :: _ => Ok ts
  end.

End torch.

(** ** Scalars of the real-valued tensors *)

Class ScalarOps (F : Type) : Type := {
  fzero : F;
  fadd : F -> F -> F;
  fmul : F -> F -> F;
  fdiv : F -> F -> F;
  ftanh : F -> F;
  fexp : F -> F
}.

#[export] Instance R_ops : ScalarOps R := {
  fzero := 0%R;
  fadd := Rplus;
  fmul := Rmult;
  fdiv := Rdiv;
  ftanh := tanh;
  fexp := exp
}.

(** A feature vector. *)
Abbreviation vec F := (list F) (only parsing).

Section Layers.

Context {F : Type} {ops : ScalarOps F}.

Definition zeros (n : nat) : vec F := replicate n fzero.

Definition vsum (xs : vec F) : F := foldr fadd fzero xs.

Definition dot (a b : vec F) : F := vsum (zip_with fmul a b).

Definition vadd (a b : vec F) : vec F := zip_with fadd a b.

(** [nn.Linear]: [x W^T + b]. *)
Record Linear : Type := {
  lin_weight : list (vec F);
  lin_bias : vec F
}.

Definition linear (l : Linear) (x : vec F) : vec F :=
  vadd (map (fun w => dot w x) (lin_weight l)) (lin_bias l).

(** A tensor of two axes: its rows and [shape[1]], the width that all its
    rows have.  A tensor without rows still has a width. *)
Record Tensor2 : Type := {
  t_rows : list (vec F);
  shape1 : nat
}.

(** [F.softmax] along one axis. *)
Definition softmax (scores : vec F) : vec F :=
  let es := map fexp scores in
  map (fun e => fdiv e (vsum es)) es.

End Layers.

Arguments Linear F : clear implicits.
Arguments Tensor2 F : clear implicits.

(** ** SequenceClassifierAttention *)

Module SequenceClassifierAttention.
Section Def.

Context {F : Type} {ops : ScalarOps F}.

Record t : Type := {
  mlp : Linear F;
  u_w : vec F;
  batch_first : bool
}.

(** [torch.sum(weighted_sequence, dim=1)] for one row: the sum of its
    per-step vectors, of the feature width [d]. *)
Definition sum_steps (d : nat) (steps : list (vec F)) : vec F :=
  foldr vadd (zeros d) steps.

Definition forward (self : t) (X : list (list (vec F)))
    : list (vec F) * list (vec F) :=
  let X := if batch_first self then X else torch.transpose X in
  let u_it := map (map (fun x => map ftanh (linear (mlp self) x))) X in
  let alpha :=
    map (fun row => softmax (map (fun u => dot u (u_w self)) row)) u_it in
  let weighted_sequence :=
    zip_with (fun row a => zip_with (fun x w => map (fun xi => fmul xi w) x) row a)
             X alpha in
  let out :=
    map (sum_steps (length (hd [] (hd [] X)))) weighted_sequence in
  (out, alpha).

End Def.
Arguments t F : clear implicits.
End SequenceClassifierAttention.

(** ** Recurrent encoder, packing and embedding *)

Section Encoder.

Context {F : Type} {ops : ScalarOps F}.

(** [nn.GRU(..., bidirectional=True, batch_first=True)].  The cell of each
    direction is a function of the input vector and the previous hidden
    state; the initial hidden state is zero. *)
Record GRU : Type := {
  hidden_size : nat;
  cell : vec F -> vec F -> vec F;
  cell_reverse : vec F -> vec F -> vec F
}.

Fixpoint run_cell (c : vec F -> vec F -> vec F) (h : vec F)
    (xs : list (vec F)) : list (vec F) :=
  match xs with
  | [] => []
  | x :: xs' => let h' := c x h in h' :: run_cell c h' xs'
  end.

(** One sequence through both directions; each step's output is the
    concatenation of the forward and the backward hidden state. *)
Definition gru_sequence (g : GRU) (xs : list (vec F)) : list (vec F) :=
  zip_with app
    (run_cell (cell g) (zeros (hidden_size g)) xs)
    (rev (run_cell (cell_reverse g) (zeros (hidden_size g)) (rev xs))).

(** The final hidden states of one sequence: the state of the forward
    direction after the last step and that of the backward direction after
    the first step. *)
Definition gru_final (g : GRU) (xs : list (vec F)) : vec F * vec F :=
  (List.last (run_cell (cell g) (zeros (hidden_size g)) xs)
             (zeros (hidden_size g)),
   List.last (run_cell (cell_reverse g) (zeros (hidden_size g)) (rev xs))
             (zeros (hidden_size g))).

(** The encoder on a padded batch: every row over all its steps.  It returns
    the per-step outputs and the final hidden states. *)
Definition gru_forward (g : GRU) (X : list (list (vec F)))
    : list (list (vec F)) * list (vec F * vec F) :=
  (map (gru_sequence g) X, map (gru_final g) X).

(** A packed batch: each sequence cut to its own length. *)
Record PackedSequence : Type := {
  data : list (list (vec F));
  batch_lengths : list nat
}.

Fixpoint descending (lengths : list nat) : bool :=
  match lengths with
  | a :: ((b :: _) as rest) => Nat.leb b a && descending rest
  | _ => true
  end.

(** [pack_padded_sequence(input, lengths, batch_first=True)] with its
    checks: the last length is read and must be positive, there is one
    length per row, and the lengths decrease. *)
Definition pack_padded_sequence (input : list (list (vec F)))
    (lengths : list nat) : res PackedSequence :=
  match last lengths with
  | None => Raise IndexError
  | Some l =>
      if Nat.leb l 0 then Raise ValueError
      else if negb (Nat.eqb (length lengths) (length input)) then Raise ValueError
      else if negb (descending lengths) then Raise ValueError
      else Ok {| data := zip_with take lengths input;
                 batch_lengths := lengths |}
  end.

(** The encoder on a packed batch: every sequence over its own length. *)
Definition gru_forward_packed (g : GRU) (p : PackedSequence)
    : PackedSequence * list (vec F * vec F) :=
  ({| data := map (gru_sequence g) (data p);
      batch_lengths := batch_lengths p |},
   map (gru_final g) (data p)).

(** [pad_packed_sequence(p, batch_first=True)]: rows are padded with zero
    vectors up to the longest sequence of the packed batch. *)
Definition pad_packed_sequence (p : PackedSequence)
    : list (list (vec F)) * list nat :=
  let max_seq_length := foldr Nat.max 0 (batch_lengths p) in
  let width := length (hd [] (hd [] (data p))) in
  (map (fun row => row ++ replicate (max_seq_length - length row) (zeros width))
       (data p),
   batch_lengths p).

(** [nn.Embedding]: row [token] of the weight table; a token outside the
    table raises.  The padding index is an integer, as in the notebook,
    which builds the network with the index of the pad token. *)
Record Embedding : Type := {
  emb_weight : list (vec F);
  padding_idx : Z
}.

Definition embedding_lookup (e : Embedding) (token : Z) : res (vec F) :=
  if Z.ltb token 0 then Raise RuntimeError
  else match emb_weight e !! Z.to_nat token with
       | Some v => Ok v
       | None => Raise RuntimeError
       end.

Definition embedding (e : Embedding) (tokens : list (list Z))
    : res (list (list (vec F))) :=
  mapM_res (mapM_res (embedding_lookup e)) tokens.

End Encoder.

Arguments GRU F : clear implicits.
Arguments PackedSequence F : clear implicits.
Arguments Embedding F : clear implicits.

(** ** get_nonzero_sequences *)

Definition get_nonzero_sequences {A : Type} (sequences : list A)
    (lengths : list nat) : res (list A * list nat) :=
  let indexes := torch.nonzero lengths in
  nonzero_seqs <- torch.index_select sequences indexes ;;
  Ok (nonzero_seqs, indexes).

(** ** HierarchicalAttentionNetwork *)

(** A 32-bit signed counter. *)
Definition wrap_int32 (z : Z) : Z :=
  ((z + 2 ^ 31) mod 2 ^ 32 - 2 ^ 31)%Z.

(** Attributes that a lookup on a module or on a tensor can return. *)
Inductive attr (F : Type) : Type :=
| AttrTensor (w : list (vec F))
| AttrInt (z : Z).

Arguments AttrTensor {F} w.
Arguments AttrInt {F} z.

Module HierarchicalAttentionNetwork.
Section Def.

Context {F : Type} {ops : ScalarOps F}.

Record t : Type := {
  embed : Embedding F;
  word_encoder : GRU F;
  word_attention : SequenceClassifierAttention.t F;
  sentence_encoder : GRU F;
  sentence_attention : SequenceClassifierAttention.t F;
  out : Linear F
}.

(** Attribute lookup on the embedding layer: its parameter [weight] and its
    configuration; any other name raises. *)
Definition Embedding_getattr (e : Embedding F) (name : string) : res (attr F) :=
  if String.eqb name "weight" then Ok (AttrTensor (emb_weight e))
  else if String.eqb name "padding_idx" then Ok (AttrInt (padding_idx e))
  else if String.eqb name "num_embeddings"
       then Ok (AttrInt (Z.of_nat (length (emb_weight e))))
  else if String.eqb name "embedding_dim"
       then Ok (AttrInt (Z.of_nat (length (hd [] (emb_weight e)))))
  else Raise AttributeError.

(** Attribute lookup on a value: a tensor has [data]. *)
Definition attr_getattr (a : attr F) (name : string) : res (attr F) :=
  match a with
  | AttrTensor w =>
      if String.eqb name "data" then Ok (AttrTensor w) else Raise AttributeError
  | AttrInt _ => Raise AttributeError
  end.

(** [dst.copy_(src)]: the values of [src], which must have the shape of
    [dst]. *)
Definition copy_ (dst : attr F) (src : list (vec F)) : res (list (vec F)) :=
  match dst with
  | AttrTensor w =>
      if bool_decide (map length w = map length src) then Ok src
      else Raise RuntimeError
  | AttrInt _ => Raise AttributeError
  end.

(** [__init__]: [fresh] holds the layers as their constructors initialise
    them; a supplied table is copied into the embedding through
    [self.embed.data.weight]. *)
Definition __init__ (fresh : t) (embedding_weights : option (list (vec F)))
    : res t :=
  embed' <-
    match embedding_weights with
    | Some w =>
        d <- Embedding_getattr (embed fresh) "data" ;;
        dw <- attr_getattr d "weight" ;;
        copied <- copy_ dw w ;;
        Ok {| emb_weight := copied; padding_idx := padding_idx (embed fresh) |}
    | None => Ok (embed fresh)
    end ;;
  Ok {| embed := embed';
        word_encoder := word_encoder fresh;
        word_attention := word_attention fresh;
        sentence_encoder := sentence_encoder fresh;
        sentence_attention := sentence_attention fresh;
        out := out fresh |}.

(** The assignment loop of [_repack_with_zero_seqs]; a position outside the
    list raises. *)
Fixpoint repack_loop (repacked_seqs : list (vec F))
    (pairs : list (vec F * nat)) : res (list (vec F)) :=
  match pairs with
  | [] => Ok repacked_seqs
  | (seq_vector, index) :: rest =>
      if Nat.ltb index (length repacked_seqs)
      then repack_loop (<[index := seq_vector]> repacked_seqs) rest
      else Raise IndexError
  end.

(** [encoded_dim] is [seq_vectors.shape[1]], which a tensor has also when
    it has no row. *)
Definition _repack_with_zero_seqs (seq_vectors : Tensor2 F)
    (batch_size : nat) (indexes_nonzero : list nat) : res (list (vec F)) :=
  let encoded_dim := shape1 seq_vectors in
  let repacked_seqs := replicate batch_size (zeros encoded_dim) in
  repacked_seqs <-
    repack_loop repacked_seqs (combine (t_rows seq_vectors) indexes_nonzero) ;;
  torch.cat_rows repacked_seqs.

(** The rows that the attention pool returns, as a tensor.  In the slot loop
    the pool is applied to at least one encoded row, since the packing step
    rejects a batch without rows, so the width is that of the rows. *)
Definition as_tensor (rows : list (vec F)) : Tensor2 F :=
  {| t_rows := rows; shape1 := length (hd [] rows) |}.

(** The token batch handed to the embedding after the sort step: the sorted
    rows, or, on the other arm of the test, the kept rows under one more
    leading axis. *)
Inductive sort_step_result : Type :=
| SortedRows (sorted_lengths sorted_indices : list nat)
             (sentence_words : list (list Z))
| Unsqueezed (sorted_lengths sorted_indices : list nat)
             (sentence_words : list (list (list Z))).

Definition sort_step (indexes_nonzero lengths_nonzero : list nat)
    (sentence_words_nonzero : list (list Z)) : res sort_step_result :=
  if Nat.ltb 0 (torch.dim1 indexes_nonzero) then
    let '(sorted_lengths, sorted_indices) := torch.sort lengths_nonzero true in
    sentence_words <- torch.index_select sentence_words_nonzero sorted_indices ;;
    Ok (SortedRows sorted_lengths sorted_indices sentence_words)
  else
    Ok (Unsqueezed lengths_nonzero indexes_nonzero [sentence_words_nonzero]).

(** Embedding, packing, the word encoder and unpacking.  With the extra
    axis the tokens are still looked up, the packing checks run against a
    batch of one row, and the recurrent layer rejects the packed data, which
    has one axis too many. *)
Definition embed_and_encode (self : t) (s : sort_step_result)
    : res (list (list (vec F)) * list nat) :=
  match s with
  | SortedRows sorted_lengths sorted_indices sentence_words =>
      words_embedded <- embedding (embed self) sentence_words ;;
      words_embedded <- pack_padded_sequence words_embedded sorted_lengths ;;
      let '(words_encoded, _) := gru_forward_packed (word_encoder self) words_embedded in
      let '(words_encoded, _) := pad_packed_sequence words_encoded in
      Ok (words_encoded, sorted_indices)
  | Unsqueezed sorted_lengths sorted_indices sentence_words =>
      _ <- mapM_res (embedding (embed self)) sentence_words ;;
      match last sorted_lengths with
      | None => Raise IndexError
      | Some l =>
          if Nat.leb l 0 then Raise ValueError
          else if negb (Nat.eqb (length sorted_lengths) 1) then Raise ValueError
          else Raise RuntimeError
      end
  end.

(** [sentence_lengths[index] += 1] for every kept index. *)
Fixpoint increment_lengths (sentence_lengths : list Z)
    (indexes_nonzero : list nat) : res (list Z) :=
  match indexes_nonzero with
  | [] => Ok sentence_lengths
  | index :: rest =>
      match sentence_lengths !! index with
      | Some c =>
          increment_lengths (<[index := wrap_int32 (c + 1)]> sentence_lengths) rest
      | None => Raise IndexError
      end
  end.

(** [X[:, i, :]]: the [i]-th sentence of every document.  In a tensor every
    document has the slot; a list that lacks it counts as an empty row. *)
Definition slot (X : list (list (list Z))) (i : nat) : list (list Z) :=
  map (fun doc => nth i doc []) X.

(** The state of the loop over the sentence slots. *)
Record loop_state : Type := {
  encoded_sents_word : list (list (vec F));
  sentence_alphas : list (list (vec F));
  sentence_lengths : list Z
}.

(** The word-level encoding of one slot, from the length probe to the
    restored row order: the encoded kept rows and the kept indexes. *)
Definition encode_words (self : t) (sentence_words : list (list Z))
    : res (list (list (vec F)) * list nat) :=
  let lengths := get_sequence_lengths sentence_words (padding_idx (embed self)) in
  nz <- get_nonzero_sequences sentence_words lengths ;;
  let '(sentence_words_nonzero, indexes_nonzero) := nz in
  lengths_nonzero <- torch.index_select lengths indexes_nonzero ;;
  sorted <- sort_step indexes_nonzero lengths_nonzero sentence_words_nonzero ;;
  enc <- embed_and_encode self sorted ;;
  let '(words_encoded, sorted_indices) := enc in
  let '(_, unsorted_indices) := torch.sort sorted_indices false in
  words_encoded <- torch.index_select words_encoded unsorted_indices ;;
  Ok (words_encoded, indexes_nonzero).

(** One turn of the loop of [encode_sentences_words]. *)
Definition encode_slot (self : t) (X : list (list (list Z)))
    (batch_size : nat) (st : loop_state) (i : nat) : res loop_state :=
  we <- encode_words self (slot X i) ;;
  let '(words_encoded, indexes_nonzero) := we in
  let '(sentence_vector, sentence_alpha) :=
    SequenceClassifierAttention.forward (word_attention self) words_encoded in
  sentence_vector <-
    _repack_with_zero_seqs (as_tensor sentence_vector) batch_size indexes_nonzero ;;
  sentence_alpha <-
    _repack_with_zero_seqs (as_tensor sentence_alpha) batch_size indexes_nonzero ;;
  sentence_lengths' <- increment_lengths (sentence_lengths st) indexes_nonzero ;;
  Ok {| encoded_sents_word := encoded_sents_word st ++ [sentence_vector];
        sentence_alphas := sentence_alphas st ++ [sentence_alpha];
        sentence_lengths := sentence_lengths' |}.

Fixpoint encode_loop (self : t) (X : list (list (list Z)))
    (batch_size : nat) (st : loop_state) (slots : list nat) : res loop_state :=
  match slots with
  | [] => Ok st
  | i :: rest =>
      st' <- encode_slot self X batch_size st i ;;
      encode_loop self X batch_size st' rest
  end.

(** [X.shape] of a three-axis token batch. *)
Definition shape (X : list (list (list Z))) : nat * nat * nat :=
  (length X, length (hd [] X), length (hd [] (hd [] X))).

Definition encode_sentences_words (self : t) (X : list (list (list Z)))
    : res (list (list (vec F)) * list (list (vec F)) * list Z) :=
  let '(batch_size, n_sents, n_words) := shape X in
  let st0 := {| encoded_sents_word := [];
                sentence_alphas := [];
                sentence_lengths := replicate batch_size 0%Z |} in
  st <- encode_loop self X batch_size st0 (seq 0 n_sents) ;;
  encoded <- torch.cat_dim1 (encoded_sents_word st) ;;
  Ok (encoded, sentence_alphas st, sentence_lengths st).

Definition forward (self : t) (X : list (list (list Z)))
    : res (list (vec F) * list (list (vec F)) * list (vec F)) :=
  r <- encode_sentences_words self X ;;
  let '(encoded_sents_word, sentence_alphas, sentence_lengths) := r in
  let '(encoded_sents, _) := gru_forward (sentence_encoder self) encoded_sents_word in
  let '(encoded_docs, document_alpha) :=
    SequenceClassifierAttention.forward (sentence_attention self) encoded_sents in
  let out := map (linear (out self)) encoded_docs in
  Ok (out, sentence_alphas, document_alpha).

End Def.
Arguments t F : clear implicits.
End HierarchicalAttentionNetwork.

(** ** Reference descriptions used in the statements *)

(** A list of (value, position) pairs is ordered by [before]. *)
Fixpoint sorted_by (before : nat -> nat -> bool) (l : list (nat * nat)) : bool :=
  match l with
  | a :: ((b :: _) as rest) => before (fst a) (fst b) && sorted_by before rest
  | _ => true
  end.

(** A row is kept when its measured length is positive. *)
Definition kept (padding_value : Z) (row : list Z) : bool :=
  Nat.ltb 0 (get_seq_len padding_value row).

Definition kept_rows (padding_value : Z) (rows : list (list Z))
    : list (list Z) :=
  List.filter (kept padding_value) rows.

(** The longest measured length of a batch of rows. *)
Definition max_length (padding_value : Z) (rows : list (list Z)) : nat :=
  foldr Nat.max 0 (get_sequence_lengths rows padding_value).

(** The number of slots, among the first [n_sents], at which a document is
    not empty. *)
Definition observed_sentences (padding_value : Z) (doc : list (list Z))
    (n_sents : nat) : nat :=
  length (List.filter (fun i => kept padding_value (nth i doc []))
                      (seq 0 n_sents)).

Section Reference.

Context {F : Type} {ops : ScalarOps F}.

Definition in_vocab (e : Embedding F) (token : Z) : bool :=
  Z.leb 0 token && Nat.ltb (Z.to_nat token) (length (emb_weight e)).

(** A slot can be encoded: some row is kept and the kept rows hold tokens
    of the embedding table only. *)
Definition slot_encodable (e : Embedding F) (rows : list (list Z)) : bool :=
  existsb (kept (padding_idx e)) rows
  && forallb (fun row => negb (kept (padding_idx e) row)
                         || forallb (in_vocab e) row) rows.

Definition encodable (self : HierarchicalAttentionNetwork.t F)
    (X : list (list (list Z))) : bool :=
  let e := HierarchicalAttentionNetwork.embed self in
  let n_sents := length (hd [] X) in
  Nat.ltb 0 n_sents
  && forallb (fun i => slot_encodable e (HierarchicalAttentionNetwork.slot X i))
             (seq 0 n_sents).

Definition embed_row (e : Embedding F) (row : list Z) : list (vec F) :=
  map (fun token => default [] (emb_weight e !! Z.to_nat token)) row.

(** The encoding of one kept row inside a batch whose longest row has [T]
    steps: the encoder runs over the measured length and the remaining steps
    are zero vectors of width [W]. *)
Definition encode_row (self : HierarchicalAttentionNetwork.t F) (T W : nat)
    (row : list Z) : list (vec F) :=
  let e := HierarchicalAttentionNetwork.embed self in
  let l := get_seq_len (padding_idx e) row in
  let h := gru_sequence (HierarchicalAttentionNetwork.word_encoder self)
                        (take l (embed_row e row)) in
  h ++ replicate (T - length h) (zeros W).

End Reference.

(** ** A small network over the reals and three batches

    The network has a ten-row embedding table of width 1, padding index 1,
    hidden size 1 and two classes; it serves as the concrete input of the
    instances below. *)

Module HAN := HierarchicalAttentionNetwork.
Module SCA := SequenceClassifierAttention.

Definition example_attention : SCA.t R :=
  {| SCA.mlp := {| lin_weight := [[1; 0]; [0; 1]]%R; lin_bias := [0; 0]%R |};
     SCA.u_w := [1; 1]%R;
     SCA.batch_first := true |}.

Definition example_gru : GRU R :=
  {| hidden_size := 1;
     cell := fun x h => [(hd 0 x + hd 0 h)%R];
     cell_reverse := fun x h => [(hd 0 x - hd 0 h)%R] |}.

Definition example_net : HAN.t R :=
  {| HAN.embed := {| emb_weight := [[0]; [0]; [2]; [3]; [4]; [5]; [6]; [7]; [8]; [9]]%R;
                     padding_idx := 1 |};
     HAN.word_encoder := example_gru;
     HAN.word_attention := example_attention;
     HAN.sentence_encoder := example_gru;
     HAN.sentence_attention := example_attention;
     HAN.out := {| lin_weight := [[1; 0]; [0; 1]]%R; lin_bias := [0; 0]%R |} |}.

(** Two documents of two slots: both slots of the first are non-empty, the
    second slot of the second is fully padded. *)
Definition batch_AB : list (list (list Z)) :=
  [[[5; 7]; [3; 1]]; [[4; 1]; [1; 1]]]%Z.

(** One document whose only slot is fully padded. *)
Definition batch_empty_slot : list (list (list Z)) := [[[1; 1]]]%Z.

(** One document, one slot of two word positions, one word. *)
Definition batch_short : list (list (list Z)) := [[[5; 1]]]%Z.

(** ** The slices of one slot

    What one turn of the slot loop appends: [sv] is the slice of sentence
    vectors and [sa] the attention array of slot [i].  The rows at the kept
    indexes are, in order, the pooled vectors and the weights that the word
    attention returns for the encoded kept rows; every other row is a zero
    vector of the same width. *)

Section SlotResult.

Context {F : Type} {ops : ScalarOps F}.

Definition slot_result (self : HAN.t F) (X : list (list (list Z))) (i : nat)
    (sv sa : list (vec F)) : Prop :=
  let pad := padding_idx (HAN.embed self) in
  let rows := HAN.slot X i in
  let indexes := torch.nonzero (get_sequence_lengths rows pad) in
  exists W,
    let words_encoded :=
      map (encode_row self (max_length pad rows) W) (kept_rows pad rows) in
    let pooled := SCA.forward (HAN.word_attention self) words_encoded in
    length sv = length X
    /\ length sa = length X
    /\ torch.index_select sv indexes = Ok (fst pooled)
    /\ torch.index_select sa indexes = Ok (snd pooled)
    /\ forall b, b < length X -> ~ In b indexes ->
         sv !! b = Some (zeros (length (hd [] (fst pooled))))
         /\ sa !! b = Some (zeros (length (hd [] (snd pooled)))).

End SlotResult.

(** * Properties *)

(** ** The result monad *)

Lemma bind_ok_inv {A B : Type} (c : res A) (k : A -> res B) (b : B) :
  bind c k = Ok b -> exists a, c = Ok a /\ k a = Ok b.
Proof.
  destruct c as [a|e]; simpl; intros H; [eauto | discriminate].
Qed.

Lemma mapM_res_Forall2 {A B : Type} (f : A -> res B) (xs : list A) (ys : list B) :
  mapM_res f xs = Ok ys <-> Forall2 (fun x y => f x = Ok y) xs ys.
Proof.
  revert ys; induction xs as [|x xs IH]; intros ys; simpl.
  - split.
    + intros [= <-]. constructor.
    + intros H. inversion H. reflexivity.
  - split.
    + intros H. apply bind_ok_inv in H as (y & Hy & H).
      apply bind_ok_inv in H as (ys' & Hys & H).
      injection H as <-. constructor; [exact Hy | now apply IH].
    + intros H. inversion H as [|? y ? ys' Hy Hys]; subst.
      rewrite Hy. simpl. apply IH in Hys. rewrite Hys. reflexivity.
Qed.

Lemma mapM_res_map {A B : Type} (f : A -> res B) (g : A -> B) (xs : list A) :
  Forall (fun x => f x = Ok (g x)) xs -> mapM_res f xs = Ok (map g xs).
Proof.
  intros H. apply mapM_res_Forall2.
  induction H; simpl; constructor; auto.
Qed.

(** ** get_sequence_lengths *)

Lemma get_seq_len_loop_scan (padding_value : Z) (sequence : list Z) (k : nat) :
  get_seq_len_loop padding_value sequence (S k) k
  = k + first_sentinel_index padding_value sequence.
Proof.
  revert k; induction sequence as [|item rest IH]; intros k; simpl.
  - lia.
  - destruct (Z.eqb item padding_value); [lia|].
    rewrite IH. lia.
Qed.

Lemma get_seq_len_scan (padding_value : Z) (sequence : list Z) :
  get_seq_len padding_value sequence
  = first_sentinel_index padding_value sequence.
Proof. unfold get_seq_len. now rewrite get_seq_len_loop_scan. Qed.

Lemma first_sentinel_index_le (padding_value : Z) (row : list Z) :
  first_sentinel_index padding_value row <= length row.
Proof.
  induction row as [|item rest IH]; simpl; [lia|].
  destruct (Z.eqb item padding_value); lia.
Qed.

Lemma first_sentinel_index_before (padding_value : Z) (row : list Z) (j : nat) :
  j < first_sentinel_index padding_value row ->
  exists item, row !! j = Some item /\ item <> padding_value.
Proof.
  revert j; induction row as [|item rest IH]; intros j; simpl; [lia|].
  destruct (Z.eqb_spec item padding_value) as [->|Hne]; [lia|].
  destruct j as [|j]; simpl.
  - intros _. eauto.
  - intros Hj. apply IH. lia.
Qed.

Lemma first_sentinel_index_at (padding_value : Z) (row : list Z) :
  first_sentinel_index padding_value row < length row ->
  row !! first_sentinel_index padding_value row = Some padding_value.
Proof.
  induction row as [|item rest IH]; simpl; [lia|].
  destruct (Z.eqb_spec item padding_value) as [->|Hne]; [reflexivity|].
  intros H. simpl. apply IH. lia.
Qed.

Lemma get_seq_len_le (padding_value : Z) (row : list Z) :
  get_seq_len padding_value row <= length row.
Proof. rewrite get_seq_len_scan. apply first_sentinel_index_le. Qed.

(** C3: [get_sequence_lengths] returns, for every row, the position index of
    the first occurrence of the padding sentinel, or the full length of the
    row when the sentinel does not occur: the result is at most the row
    length, no position before it holds the sentinel, and the position at
    it, if any, holds the sentinel; a row that begins with the sentinel has
    length 0.  Rows [5,7,1,1,1], [1,1,1,1,1] and [5,7,9,3,2] with sentinel 1
    give 2, 0 and 5. *)
Theorem get_sequence_lengths_first_sentinel :
  forall (sequences : list (list Z)) (padding_value : Z),
    get_sequence_lengths sequences padding_value
    = map (first_sentinel_index padding_value) sequences
    /\ Forall2 (fun row n =>
         n <= length row
         /\ (forall j, j < n ->
               exists item, row !! j = Some item /\ item <> padding_value)
         /\ (n < length row -> row !! n = Some padding_value)
         /\ (~ In padding_value row -> n = length row)
         /\ (head row = Some padding_value -> n = 0))
       sequences (get_sequence_lengths sequences padding_value)
    /\ get_sequence_lengths [[5; 7; 1; 1; 1]; [1; 1; 1; 1; 1]; [5; 7; 9; 3; 2]]%Z 1%Z
       = [2; 0; 5].
Proof.
  intros sequences padding_value.
  assert (Heq : get_sequence_lengths sequences padding_value
                = map (first_sentinel_index padding_value) sequences).
  { unfold get_sequence_lengths. apply map_ext. intros row.
    apply get_seq_len_scan. }
  split; [exact Heq|]. split; [|reflexivity].
  rewrite Heq. clear Heq.
  induction sequences as [|row rows IH]; simpl; constructor; [|exact IH].
  pose proof (first_sentinel_index_le padding_value row) as Hle.
  split; [exact Hle|]. split; [apply first_sentinel_index_before|].
  split; [apply first_sentinel_index_at|]. split.
  - intros Hnot.
    destruct (Nat.eq_dec (first_sentinel_index padding_value row) (length row))
      as [|Hne]; [assumption|].
    exfalso. apply Hnot.
    assert (Hlt : first_sentinel_index padding_value row < length row) by lia.
    apply first_sentinel_index_at in Hlt.
    apply list_elem_of_In. eapply list_elem_of_lookup_2. exact Hlt.
  - destruct row as [|item rest]; simpl; [reflexivity|].
    intros [= ->]. now rewrite Z.eqb_refl.
Qed.

(** ** _repack_with_zero_seqs *)

Section Repack.

Context {F : Type} {ops : ScalarOps F}.

Lemma repack_loop_spec (pairs : list (vec F * nat)) :
  forall repacked : list (vec F),
    Forall (fun p => snd p < length repacked) pairs ->
    NoDup (map snd pairs) ->
    exists out,
      HAN.repack_loop repacked pairs = Ok out
      /\ length out = length repacked
      /\ (forall v i, In (v, i) pairs -> out !! i = Some v)
      /\ (forall i, ~ In i (map snd pairs) -> out !! i = repacked !! i).
Proof.
  induction pairs as [|[v i] rest IH]; intros repacked Hlt Hnd; simpl.
  - exists repacked. repeat split; auto. intros ? ? [].
  - apply Forall_cons in Hlt as [Hi Hrest]. simpl in Hi.
    apply NoDup_cons in Hnd as [Hnotin Hnd].
    destruct (Nat.ltb_spec i (length repacked)) as [_|Hge]; [|lia].
    destruct (IH (<[i := v]> repacked)) as (out & Hout & Hlen & Hin & Hother).
    { rewrite length_insert. exact Hrest. }
    { exact Hnd. }
    exists out. split; [exact Hout|]. split.
    { now rewrite Hlen, length_insert. }
    split.
    + intros v' i' [[= <- <-]|Hin'].
      * rewrite Hother.
        -- now apply list_lookup_insert_eq.
        -- intros Hc. apply Hnotin. now apply list_elem_of_In.
      * now apply Hin.
    + intros i' Hni. rewrite Hother by tauto.
      apply list_lookup_insert_ne. simpl in Hni. intros ->. tauto.
Qed.

Lemma combine_lookup_In {A B : Type} (l : list A) (k : list B) (j : nat)
    (x : A) (y : B) :
  l !! j = Some x -> k !! j = Some y -> In (x, y) (combine l k).
Proof.
  revert j k; induction l as [|x' l IH]; intros [|j] [|y' k] Hx Hy;
    simpl in *; try discriminate.
  - injection Hx as ->. injection Hy as ->. now left.
  - right. eapply IH; eauto.
Qed.

Lemma map_snd_combine {A B : Type} (l : list A) (k : list B) :
  length l = length k -> map snd (combine l k) = k.
Proof.
  revert k; induction l as [|x l IH]; intros [|y k] Hlen;
    simpl in *; try discriminate; [reflexivity|].
  f_equal. apply IH. lia.
Qed.

Lemma repack_tensor_ok (seq_vectors : Tensor2 F) (batch_size : nat)
    (indexes : list nat) :
  0 < batch_size ->
  length (t_rows seq_vectors) = length indexes ->
  NoDup indexes ->
  Forall (fun i => i < batch_size) indexes ->
  exists out,
    HAN._repack_with_zero_seqs seq_vectors batch_size indexes = Ok out
    /\ length out = batch_size
    /\ (forall j i v, indexes !! j = Some i ->
                      t_rows seq_vectors !! j = Some v ->
                      out !! i = Some v)
    /\ (forall i, i < batch_size -> ~ In i indexes ->
                  out !! i = Some (zeros (shape1 seq_vectors))).
Proof.
  intros Hpos Hlen Hnd Hlt. unfold HAN._repack_with_zero_seqs.
  set (z := zeros (shape1 seq_vectors)).
  pose proof (map_snd_combine (t_rows seq_vectors) indexes Hlen) as Hsnd.
  destruct (repack_loop_spec (combine (t_rows seq_vectors) indexes)
              (replicate batch_size z))
    as (out & Hout & Hlen' & Hin & Hother).
  { rewrite length_replicate. apply List.Forall_forall. intros [v i] Hvi.
    apply in_combine_r in Hvi. rewrite List.Forall_forall in Hlt.
    simpl. now apply Hlt. }
  { now rewrite Hsnd. }
  rewrite length_replicate in Hlen'.
  rewrite Hout. simpl. exists out.
  assert (Hne : out <> []).
  { intros ->. simpl in Hlen'. lia. }
  split.
  { unfold torch.cat_rows. destruct out; [contradiction|reflexivity]. }
  split; [exact Hlen'|]. split.
  - intros j i v Hi Hv. apply Hin. now apply combine_lookup_In with (j := j).
  - intros i Hi Hni. rewrite Hother by now rewrite Hsnd.
    now apply lookup_replicate_2.
Qed.

Lemma repack_ok (seq_vectors : list (vec F)) (batch_size : nat)
    (indexes : list nat) :
  0 < batch_size ->
  length seq_vectors = length indexes ->
  NoDup indexes ->
  Forall (fun i => i < batch_size) indexes ->
  exists out,
    HAN._repack_with_zero_seqs (HAN.as_tensor seq_vectors) batch_size indexes
    = Ok out
    /\ length out = batch_size
    /\ (forall j i v, indexes !! j = Some i -> seq_vectors !! j = Some v ->
                      out !! i = Some v)
    /\ (forall i, i < batch_size -> ~ In i indexes ->
                  out !! i = Some (zeros (length (hd [] seq_vectors)))).
Proof. apply (repack_tensor_ok (HAN.as_tensor seq_vectors)). Qed.

Lemma repack_batch_size_zero (seq_vectors : Tensor2 F) (indexes : list nat) :
  is_ok (HAN._repack_with_zero_seqs seq_vectors 0 indexes) = false.
Proof.
  unfold HAN._repack_with_zero_seqs. simpl.
  destruct (combine (t_rows seq_vectors) indexes) as [|[v i] rest]; reflexivity.
Qed.

(** C5, as the code has it: for a positive [batch_size],
    [_repack_with_zero_seqs] returns exactly [batch_size] rows; row [i] is
    the kept vector paired with [i] when [i] is in the kept-index set and
    the zero vector of the kept vectors' width, [seq_vectors.shape[1]],
    otherwise, also when no row is kept.  Kept-index set {1,3} out of batch
    size 4 with vectors [[1,1],[2,2]] gives [[0,0],[1,1],[0,0],[2,2]], and
    no kept row of width 2 out of batch size 2 gives [[0,0],[0,0]]. *)
Theorem repack_with_zero_seqs_rows :
  forall (seq_vectors : Tensor2 F) (batch_size : nat) (indexes : list nat),
    0 < batch_size ->
    length (t_rows seq_vectors) = length indexes ->
    NoDup indexes ->
    Forall (fun i => i < batch_size) indexes ->
    (exists out,
       HAN._repack_with_zero_seqs seq_vectors batch_size indexes = Ok out
       /\ length out = batch_size
       /\ (forall j i v, indexes !! j = Some i ->
                         t_rows seq_vectors !! j = Some v ->
                         out !! i = Some v)
       /\ (forall i, i < batch_size -> ~ In i indexes ->
                     out !! i = Some (zeros (shape1 seq_vectors))))
    /\ HAN._repack_with_zero_seqs (F := R)
         {| t_rows := [[1; 1]; [2; 2]]%R; shape1 := 2 |} 4 [1; 3]
       = Ok [[0; 0]; [1; 1]; [0; 0]; [2; 2]]%R
    /\ HAN._repack_with_zero_seqs (F := R) {| t_rows := []; shape1 := 2 |} 2 []
       = Ok [[0; 0]; [0; 0]]%R.
Proof.
  intros seq_vectors batch_size indexes Hpos Hlen Hnd Hlt.
  split; [now apply repack_tensor_ok | split; reflexivity].
Qed.

End Repack.

(** The example of C5, as an instance of the general statement. *)
Lemma repack_with_zero_seqs_rows_witness :
  (exists out,
     HAN._repack_with_zero_seqs (F := R)
       {| t_rows := [[1; 1]; [2; 2]]%R; shape1 := 2 |} 4 [1; 3] = Ok out
     /\ length out = 4
     /\ (forall j i v, [1; 3] !! j = Some i ->
                       [[1; 1]; [2; 2]]%R !! j = Some v -> out !! i = Some v)
     /\ (forall i, i < 4 -> ~ In i [1; 3] ->
                   out !! i = Some (zeros 2)))
  /\ HAN._repack_with_zero_seqs (F := R)
       {| t_rows := [[1; 1]; [2; 2]]%R; shape1 := 2 |} 4 [1; 3]
     = Ok [[0; 0]; [1; 1]; [0; 0]; [2; 2]]%R
  /\ HAN._repack_with_zero_seqs (F := R) {| t_rows := []; shape1 := 2 |} 2 []
     = Ok [[0; 0]; [0; 0]]%R.
Proof.
  apply (repack_with_zero_seqs_rows (F := R)
           {| t_rows := [[1; 1]; [2; 2]]%R; shape1 := 2 |} 4 [1; 3]).
  - lia.
  - reflexivity.
  - repeat constructor; simpl; intros H; inversion H; subst;
      match goal with H' : _ ∈ _ |- _ => inversion H' end.
  - repeat constructor.
Defined.

(** With a batch size of 0 the list of rows handed to [torch.cat] is empty
    and the call raises: it does not return a tensor of 0 rows. *)
Lemma repack_raises_on_batch_size_zero :
  is_ok (HAN._repack_with_zero_seqs (F := R) {| t_rows := []; shape1 := 2 |} 0 [])
  = false
  /\ ~ exists out,
        HAN._repack_with_zero_seqs (F := R) {| t_rows := []; shape1 := 2 |} 0 []
        = Ok out
        /\ length out = 0.
Proof.
  assert (H : is_ok (HAN._repack_with_zero_seqs (F := R)
                       {| t_rows := []; shape1 := 2 |} 0 []) = false)
    by apply repack_batch_size_zero.
  split; [exact H|]. intros (out & Hout & _). rewrite Hout in H. discriminate.
Qed.

(** ** Construction with a pretrained table *)

Section Init.

Context {F : Type} {ops : ScalarOps F}.

Lemma Embedding_getattr_data (e : Embedding F) :
  HAN.Embedding_getattr e "data" = Raise AttributeError.
Proof. reflexivity. Qed.

Lemma init_without_table (fresh : HAN.t F) :
  exists net, HAN.__init__ fresh None = Ok net /\ HAN.embed net = HAN.embed fresh.
Proof. eexists. split; reflexivity. Qed.

(** C8 (the code fails it): with a pretrained table supplied, [__init__]
    looks up [data] on the embedding layer, which has no such attribute, and
    construction ends in [AttributeError]; no weight is copied. *)
Theorem init_with_table_raises :
  forall (fresh : HAN.t F) (embedding_weights : list (vec F)),
    HAN.__init__ fresh (Some embedding_weights) = Raise AttributeError.
Proof. intros fresh embedding_weights. reflexivity. Qed.

End Init.

(** ** Attention weights over the reals *)

Section Softmax.

Local Open Scope R_scope.

Lemma vsum_R_cons (x : R) (xs : list R) : vsum (x :: xs) = x + vsum xs.
Proof. reflexivity. Qed.

Lemma vsum_exp_pos (scores : list R) :
  scores <> [] -> 0 < vsum (map (fexp (F := R)) scores).
Proof.
  destruct scores as [|s scores]; [congruence|]. intros _.
  revert s; induction scores as [|s' scores IH]; intros s; simpl map.
  - rewrite vsum_R_cons. simpl. pose proof (exp_pos s). lra.
  - rewrite vsum_R_cons. specialize (IH s'). simpl map in IH.
    pose proof (exp_pos s). set (rest := vsum _) in *. simpl. lra.
Qed.

Lemma vsum_div (es : list R) (s : R) :
  vsum (map (fun e => fdiv e s) es) = vsum es / s.
Proof.
  unfold vsum. induction es as [|e es IH]; simpl in *.
  - unfold Rdiv. lra.
  - rewrite IH. unfold Rdiv. lra.
Qed.

Lemma softmax_length (scores : list R) : length (softmax scores) = length scores.
Proof. unfold softmax. now rewrite !length_map. Qed.

Lemma softmax_pos (scores : list R) :
  Forall (fun w => 0 < w) (softmax scores).
Proof.
  destruct scores as [|s scores]; [constructor|].
  assert (Hs : 0 < vsum (map (fexp (F := R)) (s :: scores)))
    by (apply vsum_exp_pos; congruence).
  unfold softmax. set (es := map fexp (s :: scores)) in *.
  apply List.Forall_forall. intros w Hw.
  apply in_map_iff in Hw as (e & <- & He).
  subst es. apply in_map_iff in He as (x & <- & _).
  simpl. apply Rdiv_lt_0_compat; [apply exp_pos | exact Hs].
Qed.

Lemma softmax_sum (scores : list R) :
  scores <> [] -> vsum (softmax scores) = 1.
Proof.
  intros Hne. unfold softmax. rewrite vsum_div.
  pose proof (vsum_exp_pos scores Hne). field. lra.
Qed.

Lemma forward_alpha (self : SCA.t R) (X : list (list (vec R))) :
  snd (SCA.forward self X)
  = map (fun row =>
           softmax (map (fun x => dot (map ftanh (linear (SCA.mlp self) x))
                                      (SCA.u_w self)) row))
        (if SCA.batch_first self then X else torch.transpose X).
Proof.
  unfold SCA.forward. simpl. rewrite map_map. apply map_ext. intros row.
  now rewrite map_map.
Qed.

(** C9: for every row with at least one timestep, the attention weights that
    [SequenceClassifierAttention.forward] returns for it are one per
    timestep, each non-negative, and sum to 1. *)
Theorem attention_weights_softmax :
  forall (self : SCA.t R) (X : list (list (vec R))) (r : nat)
         (row : list (vec R)),
    (if SCA.batch_first self then X else torch.transpose X) !! r = Some row ->
    (0 < length row)%nat ->
    exists a,
      snd (SCA.forward self X) !! r = Some a
      /\ length a = length row
      /\ Forall (fun w => 0 <= w) a
      /\ vsum a = 1.
Proof.
  intros self X r row Hrow Hlen. rewrite forward_alpha.
  rewrite list_lookup_fmap, Hrow. simpl. eexists. split; [reflexivity|].
  split; [now rewrite softmax_length, length_map|]. split.
  - eapply Forall_impl; [apply softmax_pos|]. simpl. intros w Hw. lra.
  - apply softmax_sum. destruct row; simpl in *; [lia | congruence].
Qed.

End Softmax.

(** ** Index tensors: nonzero, index_select, sort *)

Section Indexing.

Lemma index_select_Forall2 {A : Type} (t : list A) (indexes : list nat)
    (r : list A) :
  torch.index_select t indexes = Ok r
  <-> Forall2 (fun i x => t !! i = Some x) indexes r.
Proof.
  unfold torch.index_select. rewrite mapM_res_Forall2.
  split; intros H; eapply Forall2_impl; try exact H; simpl; intros i x;
    destruct (t !! i); congruence.
Qed.

Lemma index_select_map {A B : Type} (g : A -> B) (t : list A)
    (indexes : list nat) (r : list A) :
  torch.index_select t indexes = Ok r ->
  torch.index_select (map g t) indexes = Ok (map g r).
Proof.
  rewrite !index_select_Forall2. intros H.
  apply Forall2_fmap_r. eapply Forall2_impl; [exact H|].
  simpl. intros i x Hx. change (map g t) with (g <$> t).
  now rewrite list_lookup_fmap, Hx.
Qed.

Lemma nonzero_from_select {A : Type} (len : A -> nat) (rows pre : list A) :
  Forall2 (fun i row => (pre ++ rows) !! i = Some row)
          (torch.nonzero_from (length pre) (map len rows))
          (List.filter (fun row => Nat.ltb 0 (len row)) rows).
Proof.
  revert pre; induction rows as [|row rows IH]; intros pre; simpl.
  - constructor.
  - assert (Hshift : forall i r, ((pre ++ [row]) ++ rows) !! i = Some r ->
                                 (pre ++ row :: rows) !! i = Some r).
    { intros i r. now rewrite <- app_assoc. }
    specialize (IH (pre ++ [row])).
    rewrite length_app, Nat.add_1_r in IH.
    destruct (len row) as [|n] eqn:Hl; simpl.
    + eapply Forall2_impl; [exact IH | exact Hshift].
    + constructor.
      * rewrite lookup_app_r by lia. now rewrite Nat.sub_diag.
      * eapply Forall2_impl; [exact IH | exact Hshift].
Qed.

Lemma nonzero_from_bounds (lengths : list nat) (s : nat) :
  Forall (fun i => s <= i < s + length lengths) (torch.nonzero_from s lengths).
Proof.
  revert s; induction lengths as [|l ls IH]; intros s; simpl; [constructor|].
  specialize (IH (S s)).
  assert (H : Forall (fun i => s <= i < s + S (length ls))
                     (torch.nonzero_from (S s) ls)).
  { eapply Forall_impl; [exact IH|]. simpl. intros; lia. }
  destruct (Nat.eqb l 0); [exact H|]. constructor; [lia | exact H].
Qed.

Lemma nonzero_from_sorted (lengths : list nat) (s : nat) :
  StronglySorted lt (torch.nonzero_from s lengths).
Proof.
  revert s; induction lengths as [|l ls IH]; intros s; simpl; [constructor|].
  destruct (Nat.eqb l 0); [apply IH|].
  constructor; [apply IH|].
  eapply Forall_impl; [apply (nonzero_from_bounds ls (S s))|].
  simpl. intros; lia.
Qed.

Lemma nonzero_from_elem (lengths : list nat) (s i : nat) :
  In i (torch.nonzero_from s lengths)
  <-> s <= i /\ exists n, lengths !! (i - s) = Some n /\ n <> 0.
Proof.
  revert s; induction lengths as [|l ls IH]; intros s; simpl.
  - split; [tauto|]. intros (_ & n & Hn & _). discriminate.
  - assert (Htail : In i (torch.nonzero_from (S s) ls)
                    <-> s < i /\ exists n, (l :: ls) !! (i - s) = Some n /\ n <> 0).
    { rewrite IH. split.
      - intros (Hle & n & Hn & Hne). split; [lia|]. exists n. split; [|exact Hne].
        replace (i - s) with (S (i - S s)) by lia. exact Hn.
      - intros (Hlt & n & Hn & Hne). split; [lia|]. exists n. split; [|exact Hne].
        replace (i - s) with (S (i - S s)) in Hn by lia. exact Hn. }
    destruct (Nat.eqb_spec l 0) as [->|Hne].
    + rewrite Htail. split.
      * intros (Hlt & H). split; [lia | exact H].
      * intros (Hle & n & Hn & Hnz). split; [|eauto].
        destruct (Nat.eq_dec i s) as [->|]; [|lia].
        rewrite Nat.sub_diag in Hn. simpl in Hn. congruence.
    + simpl. rewrite Htail. split.
      * intros [<-|(Hlt & H)].
        -- split; [lia|]. exists l. rewrite Nat.sub_diag. auto.
        -- split; [lia | exact H].
      * intros (Hle & H).
        destruct (Nat.eq_dec s i) as [->|]; [now left | right].
        split; [lia | exact H].
Qed.

Lemma StronglySorted_lt_NoDup (l : list nat) : StronglySorted lt l -> NoDup l.
Proof.
  induction 1 as [|x l Hl IH Hx]; constructor; [|exact IH].
  intros Hin. rewrite List.Forall_forall in Hx.
  apply list_elem_of_In in Hin. apply Hx in Hin. lia.
Qed.

Lemma nonzero_NoDup (lengths : list nat) : NoDup (torch.nonzero lengths).
Proof. apply StronglySorted_lt_NoDup, nonzero_from_sorted. Qed.

Lemma nonzero_lt (lengths : list nat) :
  Forall (fun i => i < length lengths) (torch.nonzero lengths).
Proof.
  eapply Forall_impl; [apply (nonzero_from_bounds lengths 0)|].
  simpl. intros; lia.
Qed.

Lemma nonzero_elem (lengths : list nat) (i : nat) :
  In i (torch.nonzero lengths)
  <-> exists n, lengths !! i = Some n /\ n <> 0.
Proof.
  unfold torch.nonzero. rewrite nonzero_from_elem, Nat.sub_0_r.
  split; [tauto|]. intros H. split; [lia | exact H].
Qed.

End Indexing.

Section Sorting.

Variable before : nat -> nat -> bool.
Hypothesis before_total : forall a b, before a b = false -> before b a = true.

Lemma insert_pair_perm (x : nat * nat) (l : list (nat * nat)) :
  Permutation (torch.insert_pair before x l) (x :: l).
Proof.
  induction l as [|y l IH]; simpl; [reflexivity|].
  destruct (before (fst x) (fst y)); [reflexivity|].
  rewrite IH. apply perm_swap.
Qed.

Lemma insert_pair_sorted (x : nat * nat) (l : list (nat * nat)) :
  sorted_by before l = true ->
  sorted_by before (torch.insert_pair before x l) = true.
Proof using before_total.
  induction l as [|y l IH]; simpl; [reflexivity|]. intros Hs.
  destruct (before (fst x) (fst y)) eqn:Hxy.
  - simpl. now rewrite Hxy.
  - apply before_total in Hxy.
    destruct l as [|z l]; simpl in *.
    + now rewrite Hxy.
    + apply andb_true_iff in Hs as [Hyz Hs]. specialize (IH Hs).
      destruct (before (fst x) (fst z)) eqn:Hxz; simpl in *.
      * now rewrite Hxy, Hxz, Hs.
      * now rewrite Hyz, IH.
Qed.

Lemma sort_pairs_perm (v : list nat) :
  Permutation (torch.sort_pairs before v) (combine v (seq 0 (length v))).
Proof.
  unfold torch.sort_pairs.
  induction (combine v (seq 0 (length v))) as [|x l IH]; simpl; [reflexivity|].
  rewrite insert_pair_perm. now constructor.
Qed.

Lemma sort_pairs_sorted (v : list nat) :
  sorted_by before (torch.sort_pairs before v) = true.
Proof using before_total.
  unfold torch.sort_pairs.
  induction (combine v (seq 0 (length v))) as [|x l IH]; simpl; [reflexivity|].
  now apply insert_pair_sorted.
Qed.

End Sorting.

Section SortFacts.

Lemma combine_seq_lookup (v : list nat) (s : nat) (x i : nat) :
  In (x, i) (combine v (seq s (length v))) -> s <= i /\ v !! (i - s) = Some x.
Proof.
  revert s; induction v as [|y v IH]; intros s; simpl; [tauto|].
  intros [[= -> ->]|Hin].
  - rewrite Nat.sub_diag. auto.
  - apply IH in Hin as [Hle Hv]. split; [lia|].
    replace (i - s) with (S (i - S s)) by lia. exact Hv.
Qed.

Lemma map_fst_combine_seq (v : list nat) (s : nat) :
  map fst (combine v (seq s (length v))) = v.
Proof.
  revert s; induction v as [|y v IH]; intros s; simpl; [reflexivity|].
  now rewrite IH.
Qed.

Lemma map_snd_combine_seq (v : list nat) (s : nat) :
  map snd (combine v (seq s (length v))) = seq s (length v).
Proof.
  revert s; induction v as [|y v IH]; intros s; simpl; [reflexivity|].
  now rewrite IH.
Qed.

Lemma before_of_total (descending : bool) (a b : nat) :
  torch.before_of descending a b = false ->
  torch.before_of descending b a = true.
Proof.
  destruct descending; simpl; intros H; apply Nat.leb_gt in H;
    apply Nat.leb_le; lia.
Qed.

Lemma sort_unfold (v : list nat) (d : bool) :
  torch.sort v d
  = (map fst (torch.sort_pairs (torch.before_of d) v),
     map snd (torch.sort_pairs (torch.before_of d) v)).
Proof. reflexivity. Qed.

Lemma sort_values_perm (v : list nat) (d : bool) :
  Permutation (fst (torch.sort v d)) v.
Proof.
  rewrite sort_unfold. simpl.
  rewrite (sort_pairs_perm (torch.before_of d) v). now rewrite map_fst_combine_seq.
Qed.

Lemma sort_indices_perm (v : list nat) (d : bool) :
  Permutation (snd (torch.sort v d)) (seq 0 (length v)).
Proof.
  rewrite sort_unfold. simpl.
  rewrite (sort_pairs_perm (torch.before_of d) v). now rewrite map_snd_combine_seq.
Qed.

(** Every sorted value sits in the input at the position returned for it. *)
Lemma sort_indices_values (v : list nat) (d : bool) :
  Forall2 (fun i x => v !! i = Some x)
          (snd (torch.sort v d)) (fst (torch.sort v d)).
Proof.
  rewrite sort_unfold. simpl.
  assert (H : Forall (fun p => v !! snd p = Some (fst p))
                     (torch.sort_pairs (torch.before_of d) v)).
  { apply List.Forall_forall. intros [x i] Hin.
    eapply Permutation_in in Hin; [|apply sort_pairs_perm].
    apply combine_seq_lookup in Hin as [_ Hv].
    now rewrite Nat.sub_0_r in Hv. }
  induction H; simpl; constructor; auto.
Qed.

Lemma sorted_by_descending (ps : list (nat * nat)) :
  sorted_by (torch.before_of true) ps = true -> descending (map fst ps) = true.
Proof.
  induction ps as [|a ps IH]; simpl; [reflexivity|].
  destruct ps as [|b ps]; [reflexivity|]. simpl in *.
  intros H. apply andb_true_iff in H as [Hab Hs].
  rewrite Hab. simpl. now apply IH.
Qed.

Lemma sort_descending (v : list nat) :
  descending (fst (torch.sort v true)) = true.
Proof.
  rewrite sort_unfold. cbn [fst]. apply sorted_by_descending.
  apply sort_pairs_sorted. apply (before_of_total true).
Qed.

Lemma sorted_by_ascending (ps : list (nat * nat)) :
  sorted_by (torch.before_of false) ps = true -> Sorted le (map fst ps).
Proof.
  induction ps as [|a ps IH]; simpl; [constructor|].
  destruct ps as [|b ps]; [repeat constructor|]. simpl in *.
  intros H. apply andb_true_iff in H as [Hab Hs].
  constructor; [now apply IH|]. constructor. now apply Nat.leb_le.
Qed.

Lemma Sorted_le_seq (s n : nat) : Sorted le (seq s n).
Proof.
  revert s; induction n as [|n IH]; intros s; simpl; [constructor|].
  constructor; [apply IH|]. destruct n; simpl; constructor. lia.
Qed.

(** Sorting a permutation of [0 .. k-1] in increasing order returns the
    inverse permutation. *)
Lemma sort_inverse (p : list nat) :
  Permutation p (seq 0 (length p)) ->
  fst (torch.sort p false) = seq 0 (length p)
  /\ Forall2 (fun i j => p !! i = Some j)
             (snd (torch.sort p false)) (seq 0 (length p)).
Proof.
  intros Hp.
  assert (Hv : fst (torch.sort p false) = seq 0 (length p)).
  { apply (Sorted_unique le).
    - rewrite sort_unfold. cbn [fst]. apply sorted_by_ascending.
      apply sort_pairs_sorted. apply (before_of_total false).
    - apply Sorted_le_seq.
    - rewrite sort_values_perm. exact Hp. }
  split; [exact Hv|]. rewrite <- Hv. apply sort_indices_values.
Qed.

Lemma sort_singleton (l : nat) (d : bool) : torch.sort [l] d = ([l], [0]).
Proof. now destruct d. Qed.

End SortFacts.

(** ** Word-level encoding of one slot *)

Section Words.

Context {F : Type} {ops : ScalarOps F}.

Lemma index_select_total {A : Type} (t : list A) (indexes : list nat) :
  Forall (fun i => i < length t) indexes ->
  exists r, torch.index_select t indexes = Ok r.
Proof.
  induction 1 as [|i indexes Hi _ (r & Hr)].
  - exists []. reflexivity.
  - apply lookup_lt_is_Some_2 in Hi as [x Hx]. exists (x :: r).
    apply index_select_Forall2. constructor; [exact Hx|].
    now apply index_select_Forall2.
Qed.

Lemma Forall2_lookup_functional {A : Type} (t : list A) (indexes : list nat)
    (xs ys : list A) :
  Forall2 (fun i x => t !! i = Some x) indexes xs ->
  Forall2 (fun i x => t !! i = Some x) indexes ys ->
  xs = ys.
Proof.
  intros H; revert ys; induction H as [|i x indexes xs Hx _ IH]; intros ys Hys.
  - now inversion Hys.
  - inversion Hys as [|? y ? ys' Hy Hys']; subst. f_equal; [congruence|].
    now apply IH.
Qed.

Lemma zip_with_map_same {A B C D : Type} (f : B -> C -> A) (g : D -> B)
    (h : D -> C) (l : list D) :
  zip_with f (map g l) (map h l) = map (fun x => f (g x) (h x)) l.
Proof. induction l; simpl; congruence. Qed.

Lemma foldr_max_perm (l k : list nat) :
  Permutation l k -> foldr Nat.max 0 l = foldr Nat.max 0 k.
Proof. induction 1; simpl; lia. Qed.

Lemma foldr_max_kept (len : list Z -> nat) (rows : list (list Z)) :
  foldr Nat.max 0 (map len (List.filter (fun row => Nat.ltb 0 (len row)) rows))
  = foldr Nat.max 0 (map len rows).
Proof.
  induction rows as [|row rows IH]; simpl; [reflexivity|].
  destruct (Nat.ltb_spec 0 (len row)); simpl; lia.
Qed.

Lemma kept_rows_select (pad : Z) (rows : list (list Z)) :
  torch.index_select rows (torch.nonzero (get_sequence_lengths rows pad))
  = Ok (kept_rows pad rows).
Proof.
  apply index_select_Forall2.
  exact (nonzero_from_select (get_seq_len pad) rows []).
Qed.

Lemma kept_rows_kept (pad : Z) (rows : list (list Z)) :
  Forall (fun row => 0 < get_seq_len pad row) (kept_rows pad rows).
Proof.
  apply List.Forall_forall. intros row Hin.
  apply filter_In in Hin as [_ Hk]. now apply Nat.ltb_lt in Hk.
Qed.

Lemma embedding_lookup_ok (e : Embedding F) (token : Z) :
  in_vocab e token = true ->
  embedding_lookup e token = Ok (default [] (emb_weight e !! Z.to_nat token)).
Proof.
  unfold in_vocab, embedding_lookup. intros H.
  apply andb_true_iff in H as [H0 Hlt].
  apply Z.leb_le in H0. apply Nat.ltb_lt in Hlt.
  destruct (Z.ltb_spec token 0) as [|_]; [lia|].
  apply lookup_lt_is_Some_2 in Hlt as [v Hv]. rewrite Hv. reflexivity.
Qed.

Lemma embedding_ok (e : Embedding F) (rows : list (list Z)) :
  Forall (fun row => forallb (in_vocab e) row = true) rows ->
  embedding e rows = Ok (map (embed_row e) rows).
Proof.
  intros H. apply mapM_res_map. eapply Forall_impl; [exact H|].
  simpl. intros row Hrow. apply mapM_res_map.
  apply List.Forall_forall. intros token Hin.
  apply embedding_lookup_ok. rewrite forallb_forall in Hrow. now apply Hrow.
Qed.

Lemma last_positive (l : list nat) :
  l <> [] -> Forall (fun n => 0 < n) l -> exists n, last l = Some n /\ 0 < n.
Proof.
  intros Hne Hall. destruct (last l) as [n|] eqn:Hl.
  - exists n. split; [reflexivity|].
    rewrite List.Forall_forall in Hall. apply Hall.
    apply list_elem_of_In. rewrite last_lookup in Hl.
    eapply list_elem_of_lookup_2. exact Hl.
  - apply last_None in Hl. contradiction.
Qed.

Lemma pack_padded_sequence_ok (input : list (list (vec F))) (lengths : list nat) :
  lengths <> [] ->
  Forall (fun n => 0 < n) lengths ->
  length lengths = length input ->
  descending lengths = true ->
  pack_padded_sequence input lengths
  = Ok {| data := zip_with take lengths input; batch_lengths := lengths |}.
Proof.
  intros Hne Hpos Hlen Hdesc. unfold pack_padded_sequence.
  destruct (last_positive lengths Hne Hpos) as (n & -> & Hn).
  destruct (Nat.leb_spec n 0) as [|_]; [lia|].
  rewrite Hlen, Nat.eqb_refl, Hdesc. reflexivity.
Qed.

End Words.

Section EncodeWords.

Context {F : Type} {ops : ScalarOps F}.
Variable self : HAN.t F.

Lemma slot_encodable_inv (rows : list (list Z)) :
  slot_encodable (HAN.embed self) rows = true ->
  kept_rows (padding_idx (HAN.embed self)) rows <> []
  /\ Forall (fun row => forallb (in_vocab (HAN.embed self)) row = true)
            (kept_rows (padding_idx (HAN.embed self)) rows).
Proof.
  unfold slot_encodable. intros H. apply andb_true_iff in H as [Hex Hall].
  split.
  - apply existsb_exists in Hex as (row & Hin & Hk).
    intros Hnil.
    assert (Hin' : In row (kept_rows (padding_idx (HAN.embed self)) rows))
      by (apply filter_In; auto).
    rewrite Hnil in Hin'. destruct Hin'.
  - apply List.Forall_forall. intros row Hin.
    apply filter_In in Hin as [Hin Hk].
    rewrite forallb_forall in Hall. specialize (Hall row Hin).
    rewrite Hk in Hall. exact Hall.
Qed.

Lemma sorted_rows_facts (kr sorted : list (list Z)) (len : list Z -> nat) :
  torch.index_select kr (snd (torch.sort (map len kr) true)) = Ok sorted ->
  fst (torch.sort (map len kr) true) = map len sorted
  /\ length sorted = length kr
  /\ Forall (fun row => In row kr) sorted.
Proof.
  intros Hsel. pose proof Hsel as Hsel'.
  apply index_select_Forall2 in Hsel'. split; [|split].
  - apply (Forall2_lookup_functional (map len kr)
             (snd (torch.sort (map len kr) true))).
    + apply sort_indices_values.
    + apply index_select_Forall2. now apply index_select_map.
  - apply Forall2_length in Hsel'. rewrite <- Hsel'.
    rewrite (Permutation_length (sort_indices_perm (map len kr) true)).
    now rewrite length_seq, length_map.
  - clear Hsel. induction Hsel' as [|i row ? ? Hrow _ IH]; constructor; auto.
    apply list_elem_of_In. eapply list_elem_of_lookup_2. exact Hrow.
Qed.

(** Undoing the sort: selecting with the inverse permutation restores the
    kept rows in their own order. *)
Lemma unsort_select {A : Type} (kr sorted : list A) (si : list nat) :
  Permutation si (seq 0 (length kr)) ->
  torch.index_select kr si = Ok sorted ->
  torch.index_select sorted (snd (torch.sort si false)) = Ok kr.
Proof.
  intros Hperm Hsel. apply index_select_Forall2 in Hsel.
  assert (Hlen : length si = length kr).
  { rewrite (Permutation_length Hperm). apply length_seq. }
  rewrite <- Hlen in Hperm.
  destruct (sort_inverse si Hperm) as [_ Hinv].
  apply index_select_Forall2.
  apply Forall2_same_length_lookup. split.
  - apply Forall2_length in Hinv. rewrite Hinv, length_seq. exact Hlen.
  - intros m i r Hu Hr.
    assert (Hm : seq 0 (length si) !! m = Some m).
    { apply lookup_seq. split; [reflexivity|].
      apply lookup_lt_Some in Hr. lia. }
    pose proof (Forall2_lookup_lr _ _ _ _ _ _ Hinv Hu Hm) as Hsi.
    destruct (Forall2_lookup_l _ _ _ _ _ Hsel Hsi) as (r' & Hr' & Hkr).
    simpl in Hkr. congruence.
Qed.

End EncodeWords.

Section EncodeWordsOk.

Context {F : Type} {ops : ScalarOps F}.
Variable self : HAN.t F.

Lemma encode_words_ok (rows : list (list Z)) :
  slot_encodable (HAN.embed self) rows = true ->
  exists W,
    HAN.encode_words self rows
    = Ok (map (encode_row self (max_length (padding_idx (HAN.embed self)) rows) W)
              (kept_rows (padding_idx (HAN.embed self)) rows),
          torch.nonzero (get_sequence_lengths rows (padding_idx (HAN.embed self)))).
Proof.
  intros Henc. apply slot_encodable_inv in Henc as [Hne Hvocab].
  set (pad := padding_idx (HAN.embed self)) in *.
  set (kr := kept_rows pad rows) in *.
  unfold HAN.encode_words, get_nonzero_sequences.
  fold pad. rewrite kept_rows_select. fold kr. cbn [bind].
  assert (Hlnz : torch.index_select (get_sequence_lengths rows pad)
                   (torch.nonzero (get_sequence_lengths rows pad))
                 = Ok (map (get_seq_len pad) kr)).
  { apply index_select_map, kept_rows_select. }
  rewrite Hlnz. cbn [bind]. clear Hlnz.
  unfold HAN.sort_step. change (torch.dim1 _) with 1. cbn [Nat.ltb Nat.leb].
  rewrite (surjective_pairing (torch.sort (map (get_seq_len pad) kr) true)).
  pose proof (sort_indices_perm (map (get_seq_len pad) kr) true) as Hperm.
  rewrite length_map in Hperm.
  destruct (index_select_total kr (snd (torch.sort (map (get_seq_len pad) kr) true)))
    as [sorted Hsel].
  { eapply Permutation_Forall; [symmetry; exact Hperm|].
    apply List.Forall_forall. intros i Hi. apply in_seq in Hi. lia. }
  rewrite Hsel. cbn [bind].
  destruct (sorted_rows_facts kr sorted (get_seq_len pad) Hsel)
    as (Hsl & Hlen & Hin).
  rewrite Hsl. set (si := snd (torch.sort (map (get_seq_len pad) kr) true)) in *.
  unfold HAN.embed_and_encode.
  rewrite (embedding_ok (HAN.embed self) sorted).
  2: { eapply Forall_impl; [exact Hin|]. simpl. intros row Hrow.
       rewrite List.Forall_forall in Hvocab. now apply Hvocab. }
  cbn [bind].
  assert (Hsorted_ne : sorted <> []).
  { intros ->. destruct kr; [congruence | discriminate]. }
  rewrite pack_padded_sequence_ok.
  2: { destruct sorted; [congruence | discriminate]. }
  2: { apply Forall_fmap. eapply Forall_impl; [exact Hin|]. simpl.
       intros row Hrow. pose proof (kept_rows_kept pad rows) as Hk.
       rewrite List.Forall_forall in Hk. now apply Hk. }
  2: { now rewrite !length_map. }
  2: { rewrite <- Hsl. apply sort_descending. }
  cbn [bind]. unfold gru_forward_packed, pad_packed_sequence.
  cbn [data batch_lengths bind]. cbv beta iota zeta.
  rewrite (surjective_pairing (torch.sort si false)). cbv beta iota zeta.
  set (W := length (hd [] (hd [] _))).
  exists W.
  assert (HT : foldr Nat.max 0 (map (get_seq_len pad) sorted)
               = max_length pad rows).
  { rewrite <- Hsl.
    rewrite (foldr_max_perm _ _ (sort_values_perm (map (get_seq_len pad) kr) true)).
    apply (foldr_max_kept (get_seq_len pad) rows). }
  rewrite HT, zip_with_map_same, !map_map.
  change (map _ sorted)
    with (map (encode_row self (max_length pad rows) W) sorted).
  rewrite (index_select_map (encode_row self (max_length pad rows) W)
             sorted (snd (torch.sort si false)) kr).
  - reflexivity.
  - apply unsort_select; [exact Hperm | exact Hsel].
Qed.

End EncodeWordsOk.

(** ** One turn of the slot loop *)

Section Slot.

Context {F : Type} {ops : ScalarOps F}.

Lemma softmax_length_gen (scores : vec F) :
  length (softmax scores) = length scores.
Proof. unfold softmax. now rewrite !length_map. Qed.

Lemma forward_alpha_gen (a : SCA.t F) (X : list (list (vec F))) :
  snd (SCA.forward a X)
  = map (fun row =>
           softmax (map (fun x => dot (map ftanh (linear (SCA.mlp a) x))
                                      (SCA.u_w a)) row))
        (if SCA.batch_first a then X else torch.transpose X).
Proof.
  unfold SCA.forward. simpl. rewrite map_map. apply map_ext. intros row.
  now rewrite map_map.
Qed.

Lemma forward_lengths (a : SCA.t F) (X : list (list (vec F))) :
  SCA.batch_first a = true ->
  length (fst (SCA.forward a X)) = length X
  /\ length (snd (SCA.forward a X)) = length X
  /\ Forall2 (fun row al => length al = length row) X (snd (SCA.forward a X)).
Proof.
  intros Hbf. rewrite forward_alpha_gen. unfold SCA.forward. rewrite Hbf.
  cbn [fst]. rewrite !length_map, length_zip_with, !length_map.
  split; [lia|]. split; [reflexivity|].
  apply Forall2_fmap_r, Forall_Forall2_diag, List.Forall_forall.
  intros row _. unfold compose. now rewrite softmax_length_gen, length_map.
Qed.

Lemma increment_lengths_spec (indexes : list nat) :
  forall sl : list Z,
    Forall (fun i => i < length sl) indexes ->
    NoDup indexes ->
    exists sl',
      HAN.increment_lengths sl indexes = Ok sl'
      /\ length sl' = length sl
      /\ (forall b c, sl !! b = Some c ->
            (In b indexes -> sl' !! b = Some (wrap_int32 (c + 1)))
            /\ (~ In b indexes -> sl' !! b = Some c)).
Proof.
  induction indexes as [|i indexes IH]; intros sl Hlt Hnd; simpl.
  - exists sl. repeat split; auto. intros [].
  - apply Forall_cons in Hlt as [Hi Hlt].
    apply NoDup_cons in Hnd as [Hni Hnd].
    pose proof Hi as Hi'. apply lookup_lt_is_Some_2 in Hi' as [ci Hci].
    rewrite Hci.
    destruct (IH (<[i := wrap_int32 (ci + 1)]> sl)) as (sl' & Hsl' & Hlen & Hspec).
    { now rewrite length_insert. }
    { exact Hnd. }
    exists sl'. split; [exact Hsl'|]. split; [now rewrite Hlen, length_insert|].
    intros b c Hb. destruct (Nat.eq_dec i b) as [->|Hne].
    + assert (Hb' : <[b := wrap_int32 (ci + 1)]> sl !! b
                    = Some (wrap_int32 (ci + 1)))
        by now apply list_lookup_insert_eq.
      destruct (Hspec _ _ Hb') as [_ Hout].
      split; [|tauto]. intros _. rewrite Hout.
      * congruence.
      * intros Hc. apply Hni. now apply list_elem_of_In.
    + assert (Hb' : <[i := wrap_int32 (ci + 1)]> sl !! b = Some c)
        by now rewrite list_lookup_insert_ne.
      destruct (Hspec _ _ Hb') as [Hin Hout]. split.
      * intros [|Hc]; [contradiction | now apply Hin].
      * intros Hc. apply Hout. tauto.
Qed.

Lemma slot_lookup (X : list (list (list Z))) (i b : nat) (doc : list (list Z)) :
  X !! b = Some doc -> HAN.slot X i !! b = Some (nth i doc []).
Proof.
  intros Hb. unfold HAN.slot. change (map ?f X) with (f <$> X).
  now rewrite list_lookup_fmap, Hb.
Qed.

Lemma nonzero_slot_elem (pad : Z) (X : list (list (list Z))) (i b : nat)
    (doc : list (list Z)) :
  X !! b = Some doc ->
  In b (torch.nonzero (get_sequence_lengths (HAN.slot X i) pad))
  <-> kept pad (nth i doc []) = true.
Proof.
  intros Hb. rewrite nonzero_elem. unfold get_sequence_lengths, kept.
  change (map ?f (HAN.slot X i)) with (f <$> HAN.slot X i).
  rewrite list_lookup_fmap, (slot_lookup X i b doc Hb). simpl.
  rewrite Nat.ltb_lt. split.
  - intros (n & [= <-] & Hn). lia.
  - intros Hn. eexists. split; [reflexivity | lia].
Qed.

End Slot.

Section SlotOk.

Context {F : Type} {ops : ScalarOps F}.
Variable self : HAN.t F.

Lemma repack_loop_total (pairs : list (vec F * nat)) :
  forall repacked : list (vec F),
    Forall (fun p => snd p < length repacked) pairs ->
    exists out,
      HAN.repack_loop repacked pairs = Ok out
      /\ length out = length repacked
      /\ (forall P : vec F -> Prop,
            Forall P repacked -> Forall (fun p => P (fst p)) pairs ->
            Forall P out).
Proof.
  induction pairs as [|[v i] rest IH]; intros repacked Hlt; simpl.
  - exists repacked. auto.
  - apply Forall_cons in Hlt as [Hi Hrest]. simpl in Hi.
    destruct (Nat.ltb_spec i (length repacked)) as [_|]; [|lia].
    destruct (IH (<[i := v]> repacked)) as (out & Hout & Hlen & HP).
    { now rewrite length_insert. }
    exists out. split; [exact Hout|]. split; [now rewrite Hlen, length_insert|].
    intros P Hrep Hpairs. apply Forall_cons in Hpairs as [Hv Hpairs].
    apply HP; [|exact Hpairs]. now apply Forall_insert.
Qed.

Lemma repack_total (seq_vectors : list (vec F)) (batch_size : nat)
    (indexes : list nat) :
  0 < batch_size ->
  Forall (fun i => i < batch_size) indexes ->
  exists out,
    HAN._repack_with_zero_seqs (HAN.as_tensor seq_vectors) batch_size indexes
    = Ok out
    /\ length out = batch_size
    /\ (forall d, seq_vectors <> [] ->
          Forall (fun v => length v = d) seq_vectors ->
          Forall (fun v => length v = d) out).
Proof.
  intros Hpos Hlt. unfold HAN._repack_with_zero_seqs.
  cbn [HAN.as_tensor t_rows shape1].
  destruct (repack_loop_total (combine seq_vectors indexes)
              (replicate batch_size (zeros (length (hd [] seq_vectors)))))
    as (out & Hout & Hlen & HP).
  { rewrite length_replicate. apply List.Forall_forall. intros [v i] Hvi.
    apply in_combine_r in Hvi. rewrite List.Forall_forall in Hlt.
    simpl. now apply Hlt. }
  rewrite length_replicate in Hlen. rewrite Hout. cbn [bind].
  exists out. split.
  { unfold torch.cat_rows. destruct out; [simpl in Hlen; lia | reflexivity]. }
  split; [exact Hlen|].
  intros d Hne Hd. apply HP.
  - apply Forall_replicate. unfold zeros. rewrite length_replicate.
    destruct seq_vectors as [|v vs]; [congruence|].
    apply Forall_cons in Hd as [Hv _]. exact Hv.
  - apply List.Forall_forall. intros [v i] Hvi. apply in_combine_l in Hvi.
    rewrite List.Forall_forall in Hd. simpl. now apply Hd.
Qed.

Lemma run_cell_length (c : vec F -> vec F -> vec F) (xs : list (vec F)) :
  forall h, length (run_cell c h xs) = length xs.
Proof. induction xs as [|x xs IH]; intros h; simpl; [reflexivity|]. now rewrite IH. Qed.

Lemma gru_sequence_length (g : GRU F) (xs : list (vec F)) :
  length (gru_sequence g xs) = length xs.
Proof.
  unfold gru_sequence.
  rewrite length_zip_with, length_rev, !run_cell_length, length_rev. lia.
Qed.

Lemma get_seq_len_max (pad : Z) (rows : list (list Z)) (row : list Z) :
  In row rows -> get_seq_len pad row <= max_length pad rows.
Proof.
  unfold max_length, get_sequence_lengths.
  induction rows as [|r rows IH]; simpl; [tauto|].
  intros [->|Hin]; [lia|]. specialize (IH Hin). lia.
Qed.

Lemma encode_row_length (T W : nat) (row : list Z) :
  get_seq_len (padding_idx (HAN.embed self)) row <= T ->
  length (encode_row self T W row) = T.
Proof.
  intros HT. unfold encode_row.
  rewrite length_app, length_replicate, gru_sequence_length, length_take.
  unfold embed_row. rewrite length_map.
  pose proof (get_seq_len_le (padding_idx (HAN.embed self)) row). lia.
Qed.

End SlotOk.

Section SlotTurn.

Context {F : Type} {ops : ScalarOps F}.
Variable self : HAN.t F.

Lemma encode_slot_ok (X : list (list (list Z))) (st : HAN.loop_state) (i : nat) :
  slot_encodable (HAN.embed self) (HAN.slot X i) = true ->
  length (HAN.sentence_lengths st) = length X ->
  exists sv sa sl',
    HAN.encode_slot self X (length X) st i
    = Ok {| HAN.encoded_sents_word := HAN.encoded_sents_word st ++ [sv];
            HAN.sentence_alphas := HAN.sentence_alphas st ++ [sa];
            HAN.sentence_lengths := sl' |}
    /\ length sv = length X
    /\ length sa = length X
    /\ (SCA.batch_first (HAN.word_attention self) = true ->
        Forall (fun r => length r
                         = max_length (padding_idx (HAN.embed self)) (HAN.slot X i))
               sa)
    /\ length sl' = length X
    /\ (forall b doc c,
          X !! b = Some doc -> HAN.sentence_lengths st !! b = Some c ->
          sl' !! b
          = Some (if kept (padding_idx (HAN.embed self)) (nth i doc [])
                  then wrap_int32 (c + 1) else c)).
Proof.
  intros Henc Hsl.
  set (pad := padding_idx (HAN.embed self)) in *.
  set (rows := HAN.slot X i) in *.
  destruct (encode_words_ok self rows Henc) as [W Hw].
  apply slot_encodable_inv in Henc as [Hne _].
  fold pad in Hw, Hne.
  set (idx := torch.nonzero (get_sequence_lengths rows pad)) in *.
  set (we := map (encode_row self (max_length pad rows) W) (kept_rows pad rows)) in *.
  assert (Hrows : length rows = length X) by (unfold rows, HAN.slot; apply length_map).
  assert (Hidx : Forall (fun j => j < length X) idx).
  { rewrite <- Hrows.
    replace (length rows) with (length (get_sequence_lengths rows pad))
      by (unfold get_sequence_lengths; apply length_map).
    apply nonzero_lt. }
  assert (Hpos : 0 < length X).
  { rewrite <- Hrows. destruct rows; [now destruct Hne | simpl; lia]. }
  unfold HAN.encode_slot. fold rows. rewrite Hw. cbn [bind]. cbv beta iota zeta.
  rewrite (surjective_pairing (SCA.forward (HAN.word_attention self) we)).
  destruct (repack_total (fst (SCA.forward (HAN.word_attention self) we))
              (length X) idx Hpos Hidx) as (sv & Hsv & Hsvlen & _).
  destruct (repack_total (snd (SCA.forward (HAN.word_attention self) we))
              (length X) idx Hpos Hidx) as (sa & Hsa & Hsalen & Hsaw).
  destruct (increment_lengths_spec idx (HAN.sentence_lengths st))
    as (sl' & Hinc & Hsl' & Hspec).
  { now rewrite Hsl. }
  { apply nonzero_NoDup. }
  rewrite Hsv. cbn [bind]. rewrite Hsa. cbn [bind]. rewrite Hinc. cbn [bind].
  exists sv, sa, sl'. split; [reflexivity|].
  split; [exact Hsvlen|]. split; [exact Hsalen|]. split; [|split].
  - intros Hbf.
    destruct (forward_lengths (HAN.word_attention self) we Hbf)
      as (_ & Hal & Hrowsl).
    assert (Hwe : Forall (fun r => length r = max_length pad rows) we).
    { unfold we. apply Forall_fmap, List.Forall_forall. intros row Hin.
      unfold compose. apply encode_row_length.
      apply get_seq_len_max. apply filter_In in Hin. tauto. }
    apply Hsaw.
    + intros Hnil. rewrite Hnil in Hal. simpl in Hal. unfold we in Hal.
      rewrite length_map in Hal. destruct (kept_rows pad rows); [congruence|discriminate].
    + clear -Hrowsl Hwe. induction Hrowsl as [|r al ? ? Hr _ IH]; constructor.
      * apply Forall_cons in Hwe as [Hr' _]. congruence.
      * apply IH. now apply Forall_cons in Hwe as [_ ?].
  - now rewrite Hsl'.
  - intros b doc c Hb Hc. destruct (Hspec b c Hc) as [Hin Hout].
    pose proof (nonzero_slot_elem pad X i b doc Hb) as Hiff. fold rows idx in Hiff.
    destruct (kept pad (nth i doc [])) eqn:Hk.
    + apply Hin, Hiff. reflexivity.
    + apply Hout. intros Hc'. apply Hiff in Hc'. discriminate.
Qed.

Lemma encode_words_all_empty (rows : list (list Z)) :
  existsb (kept (padding_idx (HAN.embed self))) rows = false ->
  HAN.encode_words self rows = Raise IndexError.
Proof.
  intros Hex.
  set (pad := padding_idx (HAN.embed self)) in *.
  assert (Hkr : kept_rows pad rows = []).
  { unfold kept_rows. induction rows as [|row rows IH]; [reflexivity|].
    simpl in *. apply orb_false_iff in Hex as [-> Hex]. now apply IH. }
  assert (Hidx : torch.nonzero (get_sequence_lengths rows pad) = []).
  { pose proof (kept_rows_select pad rows) as H.
    apply index_select_Forall2 in H. rewrite Hkr in H. now inversion H. }
  unfold HAN.encode_words, get_nonzero_sequences. fold pad.
  rewrite Hidx. reflexivity.
Qed.

Lemma encode_slot_all_empty (X : list (list (list Z))) (st : HAN.loop_state)
    (batch_size i : nat) :
  existsb (kept (padding_idx (HAN.embed self))) (HAN.slot X i) = false ->
  HAN.encode_slot self X batch_size st i = Raise IndexError.
Proof.
  intros Hex. unfold HAN.encode_slot.
  now rewrite (encode_words_all_empty _ Hex).
Qed.

End SlotTurn.

(** ** The loop over the slots and the forward pass *)

Lemma wrap_int32_small (z : Z) :
  (- 2 ^ 31 <= z < 2 ^ 31)%Z -> wrap_int32 z = z.
Proof. intros H. unfold wrap_int32. rewrite Z.mod_small; lia. Qed.

Section Loop.

Context {F : Type} {ops : ScalarOps F}.
Variable self : HAN.t F.

Lemma encode_loop_ok (X : list (list (list Z))) (slots : list nat) :
  forall st : HAN.loop_state,
    Forall (fun i => slot_encodable (HAN.embed self) (HAN.slot X i) = true) slots ->
    length (HAN.sentence_lengths st) = length X ->
    exists svs sas sl',
      HAN.encode_loop self X (length X) st slots
      = Ok {| HAN.encoded_sents_word := HAN.encoded_sents_word st ++ svs;
              HAN.sentence_alphas := HAN.sentence_alphas st ++ sas;
              HAN.sentence_lengths := sl' |}
      /\ length svs = length slots
      /\ Forall (fun sv => length sv = length X) svs
      /\ Forall2 (fun i sa =>
                    length sa = length X
                    /\ (SCA.batch_first (HAN.word_attention self) = true ->
                        Forall (fun r => length r
                                  = max_length (padding_idx (HAN.embed self))
                                               (HAN.slot X i)) sa))
                 slots sas
      /\ length sl' = length X
      /\ (forall b doc c,
            X !! b = Some doc -> HAN.sentence_lengths st !! b = Some c ->
            (0 <= c)%Z -> (c + Z.of_nat (length slots) < 2 ^ 31)%Z ->
            sl' !! b
            = Some (c + Z.of_nat
                          (length (List.filter
                                     (fun i => kept (padding_idx (HAN.embed self))
                                                    (nth i doc []))
                                     slots)))%Z).
Proof.
  induction slots as [|i slots IH]; intros st Hall Hsl.
  - exists [], [], (HAN.sentence_lengths st). simpl. rewrite !app_nil_r.
    split; [now destruct st|]. repeat split; auto.
    intros b doc c _ Hc _ _. rewrite Hc. f_equal. lia.
  - apply Forall_cons in Hall as [Hi Hall].
    destruct (encode_slot_ok self X st i Hi Hsl)
      as (sv & sa & sl1 & Hstep & Hsv & Hsa & Hsaw & Hsl1 & Hcount).
    simpl. rewrite Hstep. cbn [bind].
    match type of Hstep with
    | _ = Ok ?st1 =>
        destruct (IH st1 Hall Hsl1)
          as (svs & sas & sl' & Hloop & Hsvs & Hsvlen & Hsas & Hsl' & Hcounts)
    end.
    cbn [HAN.encoded_sents_word HAN.sentence_alphas HAN.sentence_lengths] in *.
    exists (sv :: svs), (sa :: sas), sl'.
    rewrite Hloop, <- !app_assoc. simpl.
    split; [reflexivity|]. split; [now rewrite Hsvs|].
    split; [now constructor|]. split; [constructor; auto|].
    split; [exact Hsl'|].
    intros b doc c Hb Hc H0 Hbound.
    specialize (Hcount b doc c Hb Hc).
    destruct (kept (padding_idx (HAN.embed self)) (nth i doc [])).
    + rewrite wrap_int32_small in Hcount by lia.
      rewrite (Hcounts b doc _ Hb Hcount) by lia.
      f_equal. simpl length. lia.
    + rewrite (Hcounts b doc _ Hb Hcount) by lia. reflexivity.
Qed.

Lemma encode_loop_all_empty (X : list (list (list Z))) (batch_size : nat)
    (slots : list nat) (i : nat) :
  In i slots ->
  existsb (kept (padding_idx (HAN.embed self))) (HAN.slot X i) = false ->
  forall st, is_ok (HAN.encode_loop self X batch_size st slots) = false.
Proof.
  intros Hin Hex. induction slots as [|j slots IH]; intros st; [destruct Hin|].
  simpl. destruct Hin as [->|Hin].
  - now rewrite (encode_slot_all_empty self X st batch_size i Hex).
  - destruct (HAN.encode_slot self X batch_size st j) as [st'|e]; simpl;
      [now apply IH | reflexivity].
Qed.

Lemma omap_lookup_length {A : Type} (t : list (list A)) (j : nat) :
  Forall (fun row => j < length row) t ->
  length (omap (fun row => row !! j) t) = length t.
Proof.
  induction 1 as [|row t Hrow _ IH]; simpl; [reflexivity|].
  destruct (row !! j) eqn:E; simpl.
  - f_equal. exact IH.
  - apply lookup_ge_None in E. lia.
Qed.

Lemma transpose_shape {A : Type} (t : list (list A)) (n : nat) :
  t <> [] ->
  Forall (fun row => length row = n) t ->
  length (torch.transpose t) = n
  /\ Forall (fun col => length col = length t) (torch.transpose t).
Proof.
  intros Hne Hall. unfold torch.transpose.
  assert (Hhd : length (hd [] t) = n).
  { destruct t as [|row t]; [congruence|]. now apply Forall_cons in Hall as [? _]. }
  rewrite Hhd. split; [now rewrite length_map, length_seq|].
  apply Forall_fmap, List.Forall_forall. intros j Hj. apply in_seq in Hj.
  unfold compose. apply omap_lookup_length.
  eapply Forall_impl; [exact Hall|]. simpl. intros row ->. lia.
Qed.

End Loop.

Section Forward.

Context {F : Type} {ops : ScalarOps F}.
Variable self : HAN.t F.

Lemma encode_sentences_words_ok (X : list (list (list Z))) :
  encodable self X = true ->
  exists enc alphas sl,
    HAN.encode_sentences_words self X = Ok (enc, alphas, sl)
    /\ length enc = length X
    /\ Forall (fun r => length r = length (hd [] X)) enc
    /\ Forall2 (fun i sa =>
                  length sa = length X
                  /\ (SCA.batch_first (HAN.word_attention self) = true ->
                      Forall (fun r => length r
                                = max_length (padding_idx (HAN.embed self))
                                             (HAN.slot X i)) sa))
               (seq 0 (length (hd [] X))) alphas
    /\ length sl = length X
    /\ ((Z.of_nat (length (hd [] X)) < 2 ^ 31)%Z ->
        forall b doc, X !! b = Some doc ->
          sl !! b = Some (Z.of_nat (observed_sentences
                                      (padding_idx (HAN.embed self)) doc
                                      (length (hd [] X))))).
Proof.
  unfold encodable. intros H. apply andb_true_iff in H as [Hn Hall].
  apply Nat.ltb_lt in Hn. rewrite forallb_forall in Hall.
  apply List.Forall_forall in Hall.
  unfold HAN.encode_sentences_words, HAN.shape. cbv beta iota zeta.
  set (st0 := {| HAN.encoded_sents_word := [];
                 HAN.sentence_alphas := [];
                 HAN.sentence_lengths := replicate (length X) 0%Z |}).
  destruct (encode_loop_ok self X (seq 0 (length (hd [] X))) st0 Hall)
    as (svs & sas & sl & Hloop & Hsvs & Hsvlen & Hsas & Hsl & Hcount).
  { apply length_replicate. }
  rewrite Hloop. cbn [bind HAN.encoded_sents_word HAN.sentence_alphas
                      HAN.sentence_lengths app].
  rewrite length_seq in Hsvs.
  assert (Hne : svs <> []).
  { intros ->. simpl in Hsvs. lia. }
  destruct (transpose_shape svs (length X) Hne Hsvlen) as [Hrows Hcols].
  exists (torch.transpose svs), sas, sl. split.
  { unfold torch.cat_dim1. destruct svs; [congruence | reflexivity]. }
  split; [exact Hrows|]. split; [now rewrite <- Hsvs|].
  split; [exact Hsas|]. split; [exact Hsl|].
  intros Hbound b doc Hb.
  rewrite (Hcount b doc 0%Z Hb).
  - reflexivity.
  - apply lookup_replicate_2. now apply lookup_lt_Some in Hb.
  - lia.
  - rewrite length_seq. lia.
Qed.

Lemma forward_of_encode (X : list (list (list Z)))
    (enc alphas : list (list (vec F))) (sl : list Z) :
  HAN.encode_sentences_words self X = Ok (enc, alphas, sl) ->
  HAN.forward self X
  = Ok (map (linear (HAN.out self))
            (fst (SCA.forward (HAN.sentence_attention self)
                    (map (gru_sequence (HAN.sentence_encoder self)) enc))),
        alphas,
        snd (SCA.forward (HAN.sentence_attention self)
               (map (gru_sequence (HAN.sentence_encoder self)) enc))).
Proof.
  intros H. unfold HAN.forward. rewrite H. cbn [bind]. cbv beta iota zeta.
  unfold gru_forward. cbv beta iota zeta.
  now rewrite (surjective_pairing (SCA.forward _ _)).
Qed.

Lemma forward_all_empty_slot (X : list (list (list Z))) (i : nat) :
  i < length (hd [] X) ->
  existsb (kept (padding_idx (HAN.embed self))) (HAN.slot X i) = false ->
  is_ok (HAN.encode_sentences_words self X) = false
  /\ is_ok (HAN.forward self X) = false.
Proof.
  intros Hi Hex.
  assert (H : is_ok (HAN.encode_sentences_words self X) = false).
  { unfold HAN.encode_sentences_words, HAN.shape. cbv beta iota zeta.
    match goal with
    | |- is_ok (bind (HAN.encode_loop _ _ ?B ?st ?slots) _) = false =>
        pose proof (encode_loop_all_empty self X B slots i) as Hloop;
        specialize (fun H => Hloop H Hex st)
    end.
    destruct (HAN.encode_loop _ _ _ _ _); [|reflexivity].
    discriminate Hloop. apply in_seq. lia. }
  split; [exact H|]. unfold HAN.forward.
  destruct (HAN.encode_sentences_words self X); [discriminate | reflexivity].
Qed.

End Forward.

(** ** The batches on which the encoding returns *)

Section Returns.

Context {F : Type} {ops : ScalarOps F}.
Variable self : HAN.t F.

Lemma embedding_lookup_ok_inv (e : Embedding F) (token : Z) (v : vec F) :
  embedding_lookup e token = Ok v -> in_vocab e token = true.
Proof.
  unfold embedding_lookup, in_vocab.
  destruct (Z.ltb_spec token 0) as [|Hge]; [discriminate|].
  destruct (emb_weight e !! Z.to_nat token) eqn:Hv; [|discriminate].
  intros _. apply lookup_lt_Some in Hv.
  apply andb_true_iff. split; [now apply Z.leb_le | now apply Nat.ltb_lt].
Qed.

Lemma embedding_ok_inv (e : Embedding F) (rows : list (list Z))
    (r : list (list (vec F))) :
  embedding e rows = Ok r ->
  Forall (fun row => forallb (in_vocab e) row = true) rows.
Proof.
  unfold embedding. rewrite mapM_res_Forall2. intros H.
  induction H as [|row vs rows r Hrow _ IH]; constructor; [|exact IH].
  apply mapM_res_Forall2 in Hrow. apply forallb_forall. intros token Hin.
  clear -Hrow Hin. induction Hrow as [|t v ? ? Ht _ IH']; [destruct Hin|].
  destruct Hin as [->|Hin]; [now apply embedding_lookup_ok_inv in Ht | auto].
Qed.

(** Every row that is selected from comes back when the indexes are a
    permutation of all positions. *)
Lemma index_select_perm_In {A : Type} (t sorted : list A) (si : list nat)
    (x : A) :
  Permutation si (seq 0 (length t)) ->
  torch.index_select t si = Ok sorted ->
  In x t -> In x sorted.
Proof.
  intros Hperm Hsel Hin. apply index_select_Forall2 in Hsel.
  apply list_elem_of_In, list_elem_of_lookup in Hin as [m Hm].
  assert (Hmsi : In m si).
  { eapply Permutation_in; [symmetry; exact Hperm|].
    apply in_seq. apply lookup_lt_Some in Hm. lia. }
  apply list_elem_of_In, list_elem_of_lookup in Hmsi as [j Hj].
  destruct (Forall2_lookup_l _ _ _ _ _ Hsel Hj) as (y & Hy & Hty).
  simpl in Hty. rewrite Hm in Hty. injection Hty as <-.
  apply list_elem_of_In. eapply list_elem_of_lookup_2. exact Hy.
Qed.

Lemma encode_words_ok_inv (rows : list (list Z))
    (r : list (list (vec F)) * list nat) :
  HAN.encode_words self rows = Ok r ->
  slot_encodable (HAN.embed self) rows = true.
Proof.
  intros Hok. unfold slot_encodable.
  set (pad := padding_idx (HAN.embed self)) in *.
  destruct (existsb (kept pad) rows) eqn:Hex.
  2: { rewrite (encode_words_all_empty self rows Hex) in Hok. discriminate. }
  simpl. apply forallb_forall. intros row Hin.
  destruct (kept pad row) eqn:Hk; [simpl | reflexivity].
  set (kr := kept_rows pad rows).
  assert (Hkr : In row kr) by (apply filter_In; auto).
  revert Hok. unfold HAN.encode_words, get_nonzero_sequences.
  fold pad. rewrite kept_rows_select. fold kr. cbn [bind].
  assert (Hlnz : torch.index_select (get_sequence_lengths rows pad)
                   (torch.nonzero (get_sequence_lengths rows pad))
                 = Ok (map (get_seq_len pad) kr)).
  { apply index_select_map, kept_rows_select. }
  rewrite Hlnz. cbn [bind]. clear Hlnz.
  unfold HAN.sort_step. change (torch.dim1 _) with 1. cbn [Nat.ltb Nat.leb].
  rewrite (surjective_pairing (torch.sort (map (get_seq_len pad) kr) true)).
  pose proof (sort_indices_perm (map (get_seq_len pad) kr) true) as Hperm.
  rewrite length_map in Hperm.
  destruct (index_select_total kr (snd (torch.sort (map (get_seq_len pad) kr) true)))
    as [sorted Hsel].
  { eapply Permutation_Forall; [symmetry; exact Hperm|].
    apply List.Forall_forall. intros i Hi. apply in_seq in Hi. lia. }
  rewrite Hsel. cbn [bind]. unfold HAN.embed_and_encode.
  intros Hok. apply bind_ok_inv in Hok as (enc & Henc & _).
  apply bind_ok_inv in Henc as (emb & Hemb & _).
  apply embedding_ok_inv in Hemb.
  rewrite List.Forall_forall in Hemb. apply Hemb.
  exact (index_select_perm_In kr sorted _ row Hperm Hsel Hkr).
Qed.

Lemma encode_words_returns (rows : list (list Z)) :
  is_ok (HAN.encode_words self rows) = slot_encodable (HAN.embed self) rows.
Proof.
  destruct (slot_encodable (HAN.embed self) rows) eqn:Henc.
  - destruct (encode_words_ok self rows Henc) as [W ->]. reflexivity.
  - destruct (HAN.encode_words self rows) as [r|e] eqn:Hok; [|reflexivity].
    apply encode_words_ok_inv in Hok. congruence.
Qed.

Lemma encode_loop_ok_inv (X : list (list (list Z))) (batch_size : nat)
    (slots : list nat) :
  forall st st',
    HAN.encode_loop self X batch_size st slots = Ok st' ->
    Forall (fun i => slot_encodable (HAN.embed self) (HAN.slot X i) = true) slots
    /\ (slots = [] -> st' = st).
Proof.
  induction slots as [|i slots IH]; intros st st'; simpl.
  - intros [= <-]. split; [constructor | reflexivity].
  - intros H. apply bind_ok_inv in H as (st1 & Hstep & Hrest).
    split; [|discriminate]. constructor.
    + unfold HAN.encode_slot in Hstep.
      apply bind_ok_inv in Hstep as (we & Hwe & _).
      now apply encode_words_ok_inv in Hwe.
    + now apply IH in Hrest as [? _].
Qed.

Lemma encode_sentences_words_returns (X : list (list (list Z))) :
  is_ok (HAN.encode_sentences_words self X) = encodable self X.
Proof.
  destruct (encodable self X) eqn:Henc.
  - destruct (encode_sentences_words_ok self X Henc)
      as (enc & alphas & sl & -> & _). reflexivity.
  - destruct (HAN.encode_sentences_words self X) as [r|e] eqn:Hok;
      [|reflexivity].
    exfalso. revert Hok.
    unfold HAN.encode_sentences_words, HAN.shape. cbv beta iota zeta.
    intros Hok. apply bind_ok_inv in Hok as (st & Hloop & Hcat).
    apply encode_loop_ok_inv in Hloop as [Hall Hnil].
    unfold encodable in Henc. apply andb_false_iff in Henc as [Hn|Hf].
    + apply Nat.ltb_ge in Hn.
      assert (H0 : length (hd [] X) = 0) by lia.
      rewrite H0 in Hnil. rewrite (Hnil eq_refl) in Hcat. discriminate.
    + rewrite List.Forall_forall in Hall.
      assert (Ht : forallb
                     (fun i => slot_encodable (HAN.embed self) (HAN.slot X i))
                     (seq 0 (length (hd [] X))) = true)
        by (apply forallb_forall; exact Hall).
      congruence.
Qed.

Lemma forward_returns (X : list (list (list Z))) :
  is_ok (HAN.forward self X) = encodable self X.
Proof.
  rewrite <- encode_sentences_words_returns.
  destruct (HAN.encode_sentences_words self X) as [[[enc alphas] sl]|e] eqn:Hok.
  - now rewrite (forward_of_encode self X enc alphas sl Hok).
  - unfold HAN.forward. now rewrite Hok.
Qed.

End Returns.

(** * The claims *)

Section Claims.

Context {F : Type} {ops : ScalarOps F}.

(** C1 (the code fails it): the forward pass does not consume the observed
    sentence counts.  The sentence-level encoder and attention pool receive
    the whole accumulated sequence: one row per document of the batch, in
    batch order, each with one step per sentence slot; the result is a
    function of that sequence alone and the counts returned by
    [encode_sentences_words] are dropped. *)
Theorem forward_encodes_every_slot :
  forall (self : HAN.t F) (X : list (list (list Z))),
    encodable self X = true ->
    exists enc alphas sl,
      HAN.encode_sentences_words self X = Ok (enc, alphas, sl)
      /\ length enc = length X
      /\ Forall (fun doc_steps => length doc_steps = length (hd [] X)) enc
      /\ HAN.forward self X
         = Ok (map (linear (HAN.out self))
                   (fst (SCA.forward (HAN.sentence_attention self)
                           (map (gru_sequence (HAN.sentence_encoder self)) enc))),
               alphas,
               snd (SCA.forward (HAN.sentence_attention self)
                      (map (gru_sequence (HAN.sentence_encoder self)) enc))).
Proof.
  intros self X Henc.
  destruct (encode_sentences_words_ok self X Henc)
    as (enc & alphas & sl & Hok & Hlen & Hsteps & _).
  exists enc, alphas, sl. split; [exact Hok|]. split; [exact Hlen|].
  split; [exact Hsteps|]. exact (forward_of_encode self X enc alphas sl Hok).
Qed.

(** C2, as the code has it: at a sentence slot where every document has
    measured length 0 nothing is skipped and no zero slice is substituted.
    The turn of the loop for that slot ends in an exception, raised when the
    packing step is handed the empty batch of kept rows, and so
    [encode_sentences_words] and the forward pass end in an exception. *)
Theorem all_empty_slot_raises :
  forall (self : HAN.t F) (X : list (list (list Z))) (i : nat),
    i < length (hd [] X) ->
    existsb (kept (padding_idx (HAN.embed self))) (HAN.slot X i) = false ->
    (forall st batch_size,
       is_ok (HAN.encode_slot self X batch_size st i) = false)
    /\ is_ok (HAN.encode_sentences_words self X) = false
    /\ is_ok (HAN.forward self X) = false.
Proof.
  intros self X i Hi Hex. split.
  - intros st batch_size. now rewrite encode_slot_all_empty.
  - now apply forward_all_empty_slot with (i := i).
Qed.

(** C4: the word-level encode of a slot returns exactly when some row is
    kept and the kept rows hold tokens of the embedding table.  Then the kept
    indexes are the positions of the rows of positive length, in increasing
    order, and the encoded rows handed to the attention pool, after the sort
    by decreasing length is undone, are the encodings of the kept rows in
    that same order.  Lengths [3, 0, 5, 1] keep the indexes 0, 2, 3. *)
Theorem kept_rows_keep_their_order :
  forall (self : HAN.t F) (rows : list (list Z)),
    slot_encodable (HAN.embed self) rows = true ->
    (exists W words_encoded indexes_nonzero,
       HAN.encode_words self rows = Ok (words_encoded, indexes_nonzero)
       /\ StronglySorted lt indexes_nonzero
       /\ (forall r, In r indexes_nonzero
                     <-> exists row, rows !! r = Some row
                           /\ 0 < get_seq_len (padding_idx (HAN.embed self)) row)
       /\ Forall2 (fun r encoded =>
                     exists row,
                       rows !! r = Some row
                       /\ encoded
                          = encode_row self
                              (max_length (padding_idx (HAN.embed self)) rows)
                              W row)
                  indexes_nonzero words_encoded)
    /\ (forall rows',
          is_ok (HAN.encode_words self rows')
          = slot_encodable (HAN.embed self) rows')
    /\ torch.nonzero [3; 0; 5; 1] = [0; 2; 3].
Proof.
  intros self rows Henc. split; [|split; [apply encode_words_returns | reflexivity]].
  destruct (encode_words_ok self rows Henc) as [W Hw].
  set (pad := padding_idx (HAN.embed self)) in *.
  exists W. eexists. eexists. split; [exact Hw|].
  split; [apply nonzero_from_sorted|]. split.
  - intros r. rewrite nonzero_elem. unfold get_sequence_lengths.
    change (map ?f rows) with (f <$> rows). rewrite list_lookup_fmap.
    split.
    + intros (n & Hn & Hpos). destruct (rows !! r) as [row|]; [|discriminate].
      injection Hn as <-. exists row. split; [reflexivity | lia].
    + intros (row & -> & Hpos). eexists. split; [reflexivity | lia].
  - apply Forall2_fmap_r.
    pose proof (kept_rows_select pad rows) as Hsel.
    apply index_select_Forall2 in Hsel.
    eapply Forall2_impl; [exact Hsel|]. simpl. intros r row Hrow. eauto.
Qed.

(** C6: [encode_sentences_words] returns exactly on the batches that can
    be encoded (at least one slot, a kept row in every slot, kept tokens
    inside the embedding table).  On such a batch with fewer than 2^31 slots
    it returns one count per document, and the count of a document is the
    number of slots at which its row has positive measured length. *)
Theorem observed_sentence_counts :
  forall (self : HAN.t F) (X : list (list (list Z))),
    encodable self X = true ->
    (Z.of_nat (length (hd [] X)) < 2 ^ 31)%Z ->
    (exists enc alphas sl,
       HAN.encode_sentences_words self X = Ok (enc, alphas, sl)
       /\ length sl = length X
       /\ forall b doc, X !! b = Some doc ->
            sl !! b = Some (Z.of_nat (observed_sentences
                                        (padding_idx (HAN.embed self)) doc
                                        (length (hd [] X)))))
    /\ (forall X',
          is_ok (HAN.encode_sentences_words self X') = encodable self X').
Proof.
  intros self X Henc Hbound. split; [|apply encode_sentences_words_returns].
  destruct (encode_sentences_words_ok self X Henc)
    as (enc & alphas & sl & Hok & _ & _ & _ & Hlen & Hcount).
  exists enc, alphas, sl. auto.
Qed.

(** C7, as the code has it: the forward pass returns exactly on the batches
    that can be encoded, with one word-level attention array per sentence
    slot; the array of a slot has one row per document, and every row is as
    wide as the longest measured length of that slot, which the word axis of
    the input bounds but need not reach. *)
Theorem word_attention_shape :
  forall (self : HAN.t F) (X : list (list (list Z))),
    encodable self X = true ->
    SCA.batch_first (HAN.word_attention self) = true ->
    (exists out alphas document_alpha,
       HAN.forward self X = Ok (out, alphas, document_alpha)
       /\ length alphas = length (hd [] X)
       /\ forall i alpha, alphas !! i = Some alpha ->
            length alpha = length X
            /\ Forall (fun row => length row
                         = max_length (padding_idx (HAN.embed self))
                                      (HAN.slot X i)) alpha)
    /\ (forall i,
          max_length (padding_idx (HAN.embed self)) (HAN.slot X i)
          <= foldr Nat.max 0 (map length (HAN.slot X i)))
    /\ (forall X', is_ok (HAN.forward self X') = encodable self X').
Proof.
  intros self X Henc Hbf.
  split; [|split; [|apply forward_returns]].
  - destruct (encode_sentences_words_ok self X Henc)
      as (enc & alphas & sl & Hok & _ & _ & Hal & _).
    do 3 eexists. split; [exact (forward_of_encode self X enc alphas sl Hok)|].
    split.
    + apply Forall2_length in Hal. now rewrite length_seq in Hal.
    + intros i alpha Hi.
      destruct (Forall2_lookup_r _ _ _ _ _ Hal Hi) as (j & Hj & Hlen & Hw).
      apply lookup_seq in Hj as [-> _]. simpl in *. auto.
  - intros i. unfold max_length, get_sequence_lengths.
    induction (HAN.slot X i) as [|r rs IH]; simpl; [lia|].
    pose proof (get_seq_len_le (padding_idx (HAN.embed self)) r). lia.
Qed.

(** C10, as the code has it: when exactly one row of a slot is kept, the
    test [indexes_nonzero.dim() > 0] holds, so the sort runs over the
    singleton and returns it unchanged, with sorted index 0; the word-level
    encode completes and returns the encoding of that one row. *)
Theorem single_kept_row_is_sorted :
  forall (self : HAN.t F) (rows : list (list Z)) (row : list Z),
    slot_encodable (HAN.embed self) rows = true ->
    kept_rows (padding_idx (HAN.embed self)) rows = [row] ->
    (forall index,
       HAN.sort_step [index] [get_seq_len (padding_idx (HAN.embed self)) row] [row]
       = Ok (HAN.SortedRows [get_seq_len (padding_idx (HAN.embed self)) row]
                            [0] [row]))
    /\ exists W index,
         rows !! index = Some row
         /\ HAN.encode_words self rows
            = Ok ([encode_row self
                     (max_length (padding_idx (HAN.embed self)) rows) W row],
                  [index]).
Proof.
  intros self rows row Henc Hkr. split.
  - intros index. unfold HAN.sort_step. change (torch.dim1 _) with 1.
    cbn [Nat.ltb Nat.leb]. now rewrite sort_singleton.
  - destruct (encode_words_ok self rows Henc) as [W Hw].
    pose proof (kept_rows_select (padding_idx (HAN.embed self)) rows) as Hsel.
    apply index_select_Forall2 in Hsel. rewrite Hkr in Hsel, Hw.
    inversion Hsel as [|index ? idx ? Hrow Hrest Heq1]; subst.
    inversion Hrest; subst.
    exists W, index. split; [exact Hrow|].
    rewrite Hw. simpl. congruence.
Qed.

End Claims.

(** ** Instances on the example network *)

Lemma forward_encodes_every_slot_witness :
  exists enc alphas sl,
    HAN.encode_sentences_words example_net batch_AB = Ok (enc, alphas, sl)
    /\ length enc = length batch_AB
    /\ Forall (fun doc_steps => length doc_steps = length (hd [] batch_AB)) enc
    /\ HAN.forward example_net batch_AB
       = Ok (map (linear (HAN.out example_net))
                 (fst (SCA.forward (HAN.sentence_attention example_net)
                         (map (gru_sequence (HAN.sentence_encoder example_net)) enc))),
             alphas,
             snd (SCA.forward (HAN.sentence_attention example_net)
                    (map (gru_sequence (HAN.sentence_encoder example_net)) enc))).
Proof.
  apply (forward_encodes_every_slot example_net batch_AB). reflexivity.
Defined.

Lemma all_empty_slot_raises_witness :
  (forall st batch_size,
     is_ok (HAN.encode_slot example_net batch_empty_slot batch_size st 0)
     = false)
  /\ is_ok (HAN.encode_sentences_words example_net batch_empty_slot) = false
  /\ is_ok (HAN.forward example_net batch_empty_slot) = false.
Proof.
  apply (all_empty_slot_raises example_net batch_empty_slot 0).
  - simpl. lia.
  - reflexivity.
Defined.

(** The slot of [batch_empty_slot] is empty for the whole batch, and the
    forward pass does not complete on it. *)
Lemma all_empty_slot_not_skipped :
  existsb (kept (padding_idx (HAN.embed example_net)))
          (HAN.slot batch_empty_slot 0) = false
  /\ is_ok (HAN.forward example_net batch_empty_slot) = false
  /\ ~ exists r, HAN.forward example_net batch_empty_slot = Ok r.
Proof.
  assert (H : is_ok (HAN.forward example_net batch_empty_slot) = false)
    by reflexivity.
  split; [reflexivity|]. split; [exact H|].
  intros [r Hr]. rewrite Hr in H. discriminate.
Qed.

Lemma kept_rows_keep_their_order_witness :
  (exists W words_encoded indexes_nonzero,
     HAN.encode_words example_net
       [[5; 7; 9; 1; 1]; [1; 1; 1; 1; 1]; [2; 3; 4; 5; 6]; [8; 1; 1; 1; 1]]%Z
     = Ok (words_encoded, indexes_nonzero)
     /\ StronglySorted lt indexes_nonzero
     /\ (forall r, In r indexes_nonzero
                   <-> exists row,
                         [[5; 7; 9; 1; 1]; [1; 1; 1; 1; 1]; [2; 3; 4; 5; 6];
                          [8; 1; 1; 1; 1]]%Z !! r = Some row
                         /\ 0 < get_seq_len (padding_idx (HAN.embed example_net)) row)
     /\ Forall2 (fun r encoded =>
                   exists row,
                     [[5; 7; 9; 1; 1]; [1; 1; 1; 1; 1]; [2; 3; 4; 5; 6];
                      [8; 1; 1; 1; 1]]%Z !! r = Some row
                     /\ encoded
                        = encode_row example_net
                            (max_length (padding_idx (HAN.embed example_net))
                               [[5; 7; 9; 1; 1]; [1; 1; 1; 1; 1]; [2; 3; 4; 5; 6];
                                [8; 1; 1; 1; 1]]%Z)
                            W row)
                indexes_nonzero words_encoded)
  /\ (forall rows',
        is_ok (HAN.encode_words example_net rows')
        = slot_encodable (HAN.embed example_net) rows')
  /\ torch.nonzero [3; 0; 5; 1] = [0; 2; 3].
Proof.
  apply (kept_rows_keep_their_order example_net). reflexivity.
Defined.

(** The end-to-end scenario of C6: the first document counts 2 sentences,
    the second 1. *)
Lemma observed_sentence_counts_witness :
  exists enc alphas,
    HAN.encode_sentences_words example_net batch_AB = Ok (enc, alphas, [2; 1]%Z).
Proof.
  destruct (observed_sentence_counts example_net batch_AB)
    as [(enc & alphas & sl & Hok & Hlen & Hcount) _].
  - reflexivity.
  - simpl. lia.
  - exists enc, alphas. rewrite Hok. do 2 f_equal.
    pose proof (Hcount 0 _ eq_refl) as H0.
    pose proof (Hcount 1 _ eq_refl) as H1.
    destruct sl as [|a [|b [|c sl]]]; simpl in Hlen; try discriminate.
    simpl in H0, H1. injection H0 as ->. injection H1 as ->. reflexivity.
Defined.

Lemma word_attention_shape_witness :
  (exists out alphas document_alpha,
     HAN.forward example_net batch_short = Ok (out, alphas, document_alpha)
     /\ length alphas = length (hd [] batch_short)
     /\ forall i alpha, alphas !! i = Some alpha ->
          length alpha = length batch_short
          /\ Forall (fun row => length row
                       = max_length (padding_idx (HAN.embed example_net))
                                    (HAN.slot batch_short i)) alpha)
  /\ (forall i,
        max_length (padding_idx (HAN.embed example_net)) (HAN.slot batch_short i)
        <= foldr Nat.max 0 (map length (HAN.slot batch_short i)))
  /\ (forall X', is_ok (HAN.forward example_net X') = encodable example_net X').
Proof.
  apply (word_attention_shape example_net batch_short); reflexivity.
Defined.

(** The word axis of [batch_short] has two positions, and the rows of the
    attention array of its slot have one weight. *)
Lemma word_attention_narrower_than_word_axis :
  snd (HAN.shape batch_short) = 2
  /\ exists out alphas document_alpha alpha row,
       HAN.forward example_net batch_short = Ok (out, alphas, document_alpha)
       /\ alphas !! 0 = Some alpha
       /\ alpha !! 0 = Some row
       /\ length row = 1.
Proof.
  split; [reflexivity|].
  destruct (encode_sentences_words_ok example_net batch_short eq_refl)
    as (enc & alphas & sl & Hok & _ & _ & Hal & _).
  pose proof (forward_of_encode example_net batch_short enc alphas sl Hok) as Hfw.
  inversion Hal as [|i alpha ? ? [Hlen Hw] _]; subst.
  specialize (Hw eq_refl).
  destruct alpha as [|row alpha]; [discriminate|].
  apply Forall_cons in Hw as [Hrow _].
  do 3 eexists. exists (row :: alpha), row.
  split; [exact Hfw|]. split; [reflexivity|]. split; [reflexivity|].
  exact Hrow.
Qed.

Lemma attention_weights_softmax_witness :
  exists a,
    snd (SCA.forward example_attention [[[1; 0]; [0; 1]]]%R) !! 0 = Some a
    /\ length a = 2
    /\ Forall (fun w => (0 <= w)%R) a
    /\ vsum a = 1%R.
Proof.
  apply (attention_weights_softmax example_attention [[[1; 0]; [0; 1]]]%R 0
           [[1; 0]; [0; 1]]%R).
  - reflexivity.
  - simpl. lia.
Defined.

Lemma single_kept_row_is_sorted_witness :
  (forall index,
     HAN.sort_step [index]
       [get_seq_len (padding_idx (HAN.embed example_net)) [5; 7; 9]%Z]
       [[5; 7; 9]%Z]
     = Ok (HAN.SortedRows
             [get_seq_len (padding_idx (HAN.embed example_net)) [5; 7; 9]%Z]
             [0] [[5; 7; 9]%Z]))
  /\ exists W index,
       [[1; 1; 1]; [5; 7; 9]]%Z !! index = Some [5; 7; 9]%Z
       /\ HAN.encode_words example_net [[1; 1; 1]; [5; 7; 9]]%Z
          = Ok ([encode_row example_net
                   (max_length (padding_idx (HAN.embed example_net))
                      [[1; 1; 1]; [5; 7; 9]]%Z) W [5; 7; 9]%Z],
                [index]).
Proof.
  apply (single_kept_row_is_sorted example_net [[1; 1; 1]; [5; 7; 9]]%Z
           [5; 7; 9]%Z); reflexivity.
Defined.

(** With one kept row, the batch handed to the embedding is built by the arm
    that sorts, not by the arm that adds a leading axis. *)
Lemma single_kept_row_takes_sort_arm :
  torch.nonzero (get_sequence_lengths [[1; 1; 1]; [5; 7; 9]]%Z 1) = [1]
  /\ HAN.sort_step [1] [3] [[5; 7; 9]%Z]
     = Ok (HAN.SortedRows [3] [0] [[5; 7; 9]%Z])
  /\ ~ exists l i t, HAN.sort_step [1] [3] [[5; 7; 9]%Z]
                     = Ok (HAN.Unsqueezed l i t).
Proof.
  split; [reflexivity|]. split; [reflexivity|].
  intros (l & i & t & H). discriminate H.
Qed.

(** * Further properties of the code *)

(** ** The length probe and the row filter *)

Lemma first_sentinel_index_app_pad (padding_value : Z) (pre rest : list Z) :
  first_sentinel_index padding_value (pre ++ padding_value :: rest)
  = first_sentinel_index padding_value pre.
Proof.
  induction pre as [|item pre IH]; simpl.
  - now rewrite Z.eqb_refl.
  - destruct (Z.eqb item padding_value); [reflexivity | now rewrite IH].
Qed.

(** X1: whatever follows a padding value in a row does not count: the
    measured length of [pre ++ padding :: rest] is that of [pre].  So padding
    every row of a batch further, by any number of padding values, leaves
    all the measured lengths as they are. *)
Theorem get_seq_len_stops_at_padding :
  forall (padding_value : Z) (pre rest : list Z) (rows : list (list Z)) (k : nat),
    get_seq_len padding_value (pre ++ padding_value :: rest)
    = get_seq_len padding_value pre
    /\ get_sequence_lengths
         (map (fun row => row ++ replicate k padding_value) rows) padding_value
       = get_sequence_lengths rows padding_value.
Proof.
  intros padding_value pre rest rows k. split.
  - rewrite !get_seq_len_scan. apply first_sentinel_index_app_pad.
  - unfold get_sequence_lengths. rewrite map_map. apply map_ext. intros row.
    destruct k as [|k]; simpl.
    + now rewrite app_nil_r.
    + rewrite !get_seq_len_scan. apply first_sentinel_index_app_pad.
Qed.

Lemma nonzero_from_all_nonzero (lengths : list nat) (s : nat) :
  Forall (fun n => n <> 0) lengths ->
  torch.nonzero_from s lengths = seq s (length lengths).
Proof.
  intros H; revert s; induction H as [|n ls Hn _ IH]; intros s; simpl;
    [reflexivity|].
  destruct (Nat.eqb_spec n 0); [contradiction|]. now rewrite IH.
Qed.

Lemma nonzero_from_all_zero (lengths : list nat) (s : nat) :
  Forall (fun n => n = 0) lengths -> torch.nonzero_from s lengths = [].
Proof.
  intros H; revert s; induction H as [|n ls -> _ IH]; intros s; simpl; auto.
Qed.

Lemma index_select_all {A : Type} (t pre : list A) :
  Forall2 (fun i x => (pre ++ t) !! i = Some x) (seq (length pre) (length t)) t.
Proof.
  revert pre; induction t as [|x t IH]; intros pre; simpl; constructor.
  - rewrite lookup_app_r by lia. now rewrite Nat.sub_diag.
  - specialize (IH (pre ++ [x])).
    rewrite length_app, Nat.add_1_r, <- app_assoc in IH. exact IH.
Qed.

(** X2: [get_nonzero_sequences], given one length per sequence, never
    raises and returns as many sequences as indexes.  When no length is zero
    it drops nothing: the sequences come back unchanged, with the indexes
    0 .. n-1.  When every length is zero it returns no sequence and no
    index, without an error. *)
Theorem get_nonzero_sequences_edges :
  forall (A : Type) (sequences : list A) (lengths : list nat),
    length lengths = length sequences ->
    exists seqs indexes,
      get_nonzero_sequences sequences lengths = Ok (seqs, indexes)
      /\ length seqs = length indexes
      /\ length indexes <= length sequences
      /\ (Forall (fun n => n <> 0) lengths ->
          seqs = sequences /\ indexes = seq 0 (length sequences))
      /\ (Forall (fun n => n = 0) lengths -> seqs = [] /\ indexes = []).
Proof.
  intros A sequences lengths Hlen. unfold get_nonzero_sequences.
  destruct (index_select_total sequences (torch.nonzero lengths)) as [seqs Hsel].
  { rewrite <- Hlen. apply nonzero_lt. }
  rewrite Hsel. cbn [bind]. exists seqs, (torch.nonzero lengths).
  split; [reflexivity|].
  pose proof Hsel as HF. apply index_select_Forall2 in HF.
  split; [symmetry; now apply Forall2_length in HF|]. split; [|split].
  - pose proof (nonzero_NoDup lengths) as Hnd.
    pose proof (nonzero_lt lengths) as Hlt. rewrite Hlen in Hlt.
    assert (Hle : length (torch.nonzero lengths)
                  <= length (seq 0 (length sequences))).
    2: { now rewrite length_seq in Hle. }
    apply NoDup_incl_length; [now apply NoDup_ListNoDup|].
    intros i Hi. apply in_seq. rewrite List.Forall_forall in Hlt.
    specialize (Hlt i Hi). lia.
  - intros Hnz. unfold torch.nonzero in *.
    rewrite (nonzero_from_all_nonzero lengths 0 Hnz), Hlen in *.
    split; [|reflexivity].
    apply (Forall2_lookup_functional sequences (seq 0 (length sequences)));
      [exact HF|]. exact (index_select_all sequences []).
  - intros Hz. unfold torch.nonzero in *.
    rewrite (nonzero_from_all_zero lengths 0 Hz) in *.
    inversion HF. auto.
Qed.

Lemma get_nonzero_sequences_edges_witness :
  exists seqs indexes,
    get_nonzero_sequences [[5; 7]; [1; 1]; [4; 1]]%Z [2; 0; 1] = Ok (seqs, indexes)
    /\ length seqs = length indexes
    /\ length indexes <= length [[5; 7]; [1; 1]; [4; 1]]%Z
    /\ (Forall (fun n => n <> 0) [2; 0; 1] ->
        seqs = [[5; 7]; [1; 1]; [4; 1]]%Z
        /\ indexes = seq 0 (length [[5; 7]; [1; 1]; [4; 1]]%Z))
    /\ (Forall (fun n => n = 0) [2; 0; 1] -> seqs = [] /\ indexes = []).
Proof.
  apply (get_nonzero_sequences_edges (list Z) [[5; 7]; [1; 1]; [4; 1]]%Z [2; 0; 1]).
  reflexivity.
Defined.

(** ** Repacking *)

Section RepackMore.

Context {F : Type} {ops : ScalarOps F}.

Lemma repack_loop_out_of_range (pairs : list (vec F * nat)) :
  forall repacked : list (vec F),
    Exists (fun p => length repacked <= snd p) pairs ->
    HAN.repack_loop repacked pairs = Raise IndexError.
Proof.
  induction pairs as [|[v i] rest IH]; intros repacked Hex; simpl.
  - inversion Hex.
  - destruct (Nat.ltb_spec i (length repacked)) as [Hlt|Hge]; [|reflexivity].
    apply IH. rewrite length_insert.
    apply Exists_cons in Hex as [Hhd|Htl]; [simpl in Hhd; lia | exact Htl].
Qed.

(** X3: when a kept index that has a vector lies at or beyond [batch_size],
    [_repack_with_zero_seqs] raises [IndexError] from the list assignment,
    whatever the other pairs are; no partial result is returned. *)
Theorem repack_index_out_of_range :
  forall (seq_vectors : Tensor2 F) (batch_size : nat) (indexes : list nat)
         (j i : nat) (v : vec F),
    indexes !! j = Some i ->
    t_rows seq_vectors !! j = Some v ->
    batch_size <= i ->
    HAN._repack_with_zero_seqs seq_vectors batch_size indexes = Raise IndexError.
Proof.
  intros seq_vectors batch_size indexes j i v Hi Hv Hge.
  unfold HAN._repack_with_zero_seqs.
  rewrite repack_loop_out_of_range; [reflexivity|].
  rewrite length_replicate. apply Exists_exists. exists (v, i).
  split; [|exact Hge]. apply list_elem_of_In.
  now apply combine_lookup_In with (j := j).
Qed.

(** X4: repacking and then selecting the rows at the kept indexes gives back
    the kept vectors, in their order: the scatter loses none of them. *)
Theorem repack_then_select :
  forall (seq_vectors : Tensor2 F) (batch_size : nat) (indexes : list nat),
    0 < batch_size ->
    length (t_rows seq_vectors) = length indexes ->
    NoDup indexes ->
    Forall (fun i => i < batch_size) indexes ->
    exists out,
      HAN._repack_with_zero_seqs seq_vectors batch_size indexes = Ok out
      /\ torch.index_select out indexes = Ok (t_rows seq_vectors).
Proof.
  intros seq_vectors batch_size indexes Hpos Hlen Hnd Hlt.
  destruct (repack_tensor_ok seq_vectors batch_size indexes Hpos Hlen Hnd Hlt)
    as (out & Hout & _ & Hkept & _).
  exists out. split; [exact Hout|].
  apply index_select_Forall2, Forall2_same_length_lookup.
  split; [now symmetry|]. intros j i v Hi Hv. now apply (Hkept j).
Qed.

End RepackMore.

Lemma repack_index_out_of_range_witness :
  HAN._repack_with_zero_seqs (F := R)
    {| t_rows := [[1; 1]; [2; 2]]%R; shape1 := 2 |} 3 [1; 3]
  = Raise IndexError.
Proof.
  apply (repack_index_out_of_range (F := R)
           {| t_rows := [[1; 1]; [2; 2]]%R; shape1 := 2 |} 3 [1; 3]
           1 3 [2; 2]%R).
  - reflexivity.
  - reflexivity.
  - lia.
Defined.

Lemma repack_then_select_witness :
  exists out,
    HAN._repack_with_zero_seqs (F := R)
      {| t_rows := [[1; 1]; [2; 2]]%R; shape1 := 2 |} 4 [1; 3] = Ok out
    /\ torch.index_select out [1; 3] = Ok [[1; 1]; [2; 2]]%R.
Proof.
  apply (repack_then_select (F := R)
           {| t_rows := [[1; 1]; [2; 2]]%R; shape1 := 2 |} 4 [1; 3]).
  - lia.
  - reflexivity.
  - repeat constructor; simpl; intros H; inversion H; subst;
      match goal with H' : _ ∈ _ |- _ => inversion H' end.
  - repeat constructor.
Defined.

(** ** The attention pool *)

Section AttentionShape.

Context {F : Type} {ops : ScalarOps F}.


Lemma forward_out_row (self : SCA.t F) (X : list (list (vec F))) (r : nat)
    (row : list (vec F)) :
  SCA.batch_first self = true ->
  X !! r = Some row ->
  fst (SCA.forward self X) !! r
  = Some (SCA.sum_steps (length (hd [] (hd [] X)))
            (zip_with (fun x w => map (fun xi => fmul xi w) x) row
               (softmax (map (fun x => dot (map ftanh (linear (SCA.mlp self) x))
                                           (SCA.u_w self)) row)))).
Proof.
  intros Hbf Hrow. unfold SCA.forward. rewrite Hbf. cbn [fst].
  change (map ?f ?l !! r) with ((f <$> l) !! r).
  rewrite list_lookup_fmap, lookup_zip_with, Hrow. cbn [mbind option_bind].
  change (map ?f ?l !! r) with ((f <$> l) !! r).
  rewrite list_lookup_fmap.
  change (map ?f X !! r) with ((f <$> X) !! r).
  rewrite list_lookup_fmap, Hrow. simpl. now rewrite map_map.
Qed.


End AttentionShape.


Section AttentionReal.

Local Open Scope R_scope.





Lemma sum_steps_constant (v : list R) (a : list R) :
  SCA.sum_steps (length v)
    (zip_with (fun x w => map (fun xi => fmul xi w) x)
              (replicate (length a) v) a)
  = map (fun xi => xi * vsum a) v.
Proof.
  unfold SCA.sum_steps.
  induction a as [|w a IH]; cbn [length replicate zip_with foldr].
  - unfold zeros. induction v as [|x v IHv]; simpl; [reflexivity|].
    f_equal; [unfold vsum; simpl; lra | exact IHv].
  - rewrite IH. unfold vadd. clear IH.
    induction v as [|x v IHv]; simpl; [reflexivity|].
    f_equal; [unfold vsum; simpl; lra | exact IHv].
Qed.

(** X6: when all the steps of a row carry the same vector, its pooled vector
    is that vector: the weights sum to 1, whatever the learned parameters
    are (over the reals). *)
Theorem attention_pools_constant_row :
  forall (self : SCA.t R) (X : list (list (list R))) (r T : nat) (v : list R),
    SCA.batch_first self = true ->
    (0 < T)%nat ->
    X !! r = Some (replicate T v) ->
    length (hd [] (hd [] X)) = length v ->
    fst (SCA.forward self X) !! r = Some v.
Proof.
  intros self X r T v Hbf HT Hrow Hd.
  rewrite (forward_out_row self X r _ Hbf Hrow), Hd. f_equal.
  set (a := softmax _).
  assert (Ha : length a = T).
  { unfold a. now rewrite softmax_length, length_map, length_replicate. }
  rewrite <- Ha. rewrite sum_steps_constant.
  assert (Hsum : vsum a = 1).
  { apply softmax_sum. destruct T; [lia | discriminate]. }
  rewrite Hsum. rewrite <- (map_id v) at 2. apply map_ext. intros xi. lra.
Qed.


End AttentionReal.

Lemma attention_pools_constant_row_witness :
  fst (SCA.forward example_attention [[[3; 4]; [3; 4]; [3; 4]]]%R) !! 0
  = Some [3; 4]%R.
Proof.
  apply (attention_pools_constant_row example_attention
           [[[3; 4]; [3; 4]; [3; 4]]]%R 0 3 [3; 4]%R).
  - reflexivity.
  - lia.
  - reflexivity.
  - reflexivity.
Defined.


(** ** Placeholders and weights in the slot loop *)

Section SlotRows.

Context {F : Type} {ops : ScalarOps F}.
Variable self : HAN.t F.
Hypothesis word_batch_first : SCA.batch_first (HAN.word_attention self) = true.

Lemma encode_slot_result (X : list (list (list Z))) (st : HAN.loop_state)
    (i : nat) :
  slot_encodable (HAN.embed self) (HAN.slot X i) = true ->
  length (HAN.sentence_lengths st) = length X ->
  exists sv sa sl',
    HAN.encode_slot self X (length X) st i
    = Ok {| HAN.encoded_sents_word := HAN.encoded_sents_word st ++ [sv];
            HAN.sentence_alphas := HAN.sentence_alphas st ++ [sa];
            HAN.sentence_lengths := sl' |}
    /\ length sl' = length X
    /\ slot_result self X i sv sa.
Proof using word_batch_first.
  intros Henc Hsl.
  set (pad := padding_idx (HAN.embed self)) in *.
  set (rows := HAN.slot X i) in *.
  destruct (encode_words_ok self rows Henc) as [W Hw].
  apply slot_encodable_inv in Henc as [Hne _].
  fold pad in Hw, Hne.
  set (idx := torch.nonzero (get_sequence_lengths rows pad)) in *.
  set (we := map (encode_row self (max_length pad rows) W) (kept_rows pad rows)) in *.
  assert (Hrows : length rows = length X) by (unfold rows, HAN.slot; apply length_map).
  assert (Hidx : Forall (fun j => j < length X) idx).
  { rewrite <- Hrows.
    replace (length rows) with (length (get_sequence_lengths rows pad))
      by (unfold get_sequence_lengths; apply length_map).
    apply nonzero_lt. }
  assert (Hpos : 0 < length X).
  { rewrite <- Hrows. destruct rows; [now destruct Hne | simpl; lia]. }
  assert (Hnd : NoDup idx) by apply nonzero_NoDup.
  assert (Hk : length we = length idx).
  { unfold we. rewrite length_map.
    pose proof (kept_rows_select pad rows) as Hsel.
    apply index_select_Forall2, Forall2_length in Hsel. now symmetry. }
  destruct (forward_lengths (HAN.word_attention self) we word_batch_first)
    as (Hvl & Hal & _).
  unfold HAN.encode_slot. fold rows. rewrite Hw. cbn [bind]. cbv beta iota zeta.
  rewrite (surjective_pairing (SCA.forward (HAN.word_attention self) we)).
  destruct (repack_ok (fst (SCA.forward (HAN.word_attention self) we))
              (length X) idx Hpos) as (sv & Hsv & Hsvlen & Hsvk & Hsvz);
    [congruence | exact Hnd | exact Hidx |].
  destruct (repack_ok (snd (SCA.forward (HAN.word_attention self) we))
              (length X) idx Hpos) as (sa & Hsa & Hsalen & Hsak & Hsaz);
    [congruence | exact Hnd | exact Hidx |].
  destruct (increment_lengths_spec idx (HAN.sentence_lengths st))
    as (sl' & Hinc & Hsl' & _); [now rewrite Hsl | exact Hnd |].
  rewrite Hsv. cbn [bind]. rewrite Hsa. cbn [bind]. rewrite Hinc. cbn [bind].
  exists sv, sa, sl'. split; [reflexivity|]. split; [now rewrite Hsl'|].
  exists W. cbv zeta. fold pad rows idx we.
  split; [exact Hsvlen|]. split; [exact Hsalen|]. split; [|split].
  - apply index_select_Forall2, Forall2_same_length_lookup.
    split; [congruence|]. intros j b v Hb Hv. now apply (Hsvk j).
  - apply index_select_Forall2, Forall2_same_length_lookup.
    split; [congruence|]. intros j b v Hb Hv. now apply (Hsak j).
  - intros b Hb Hni. split; [now apply Hsvz | now apply Hsaz].
Qed.

Lemma encode_loop_results (X : list (list (list Z))) (slots : list nat) :
  forall st : HAN.loop_state,
    Forall (fun i => slot_encodable (HAN.embed self) (HAN.slot X i) = true) slots ->
    length (HAN.sentence_lengths st) = length X ->
    exists svs sas sl',
      HAN.encode_loop self X (length X) st slots
      = Ok {| HAN.encoded_sents_word := HAN.encoded_sents_word st ++ svs;
              HAN.sentence_alphas := HAN.sentence_alphas st ++ sas;
              HAN.sentence_lengths := sl' |}
      /\ length svs = length slots
      /\ length sas = length slots
      /\ forall k i, slots !! k = Some i ->
           exists sv sa,
             svs !! k = Some sv /\ sas !! k = Some sa
             /\ slot_result self X i sv sa.
Proof using word_batch_first.
  induction slots as [|i slots IH]; intros st Hall Hsl.
  - exists [], [], (HAN.sentence_lengths st). simpl. rewrite !app_nil_r.
    split; [now destruct st|]. repeat split; auto. intros k i Hk. discriminate.
  - apply Forall_cons in Hall as [Hi Hall].
    destruct (encode_slot_result X st i Hi Hsl)
      as (sv & sa & sl1 & Hstep & Hsl1 & Hres).
    simpl. rewrite Hstep. cbn [bind].
    match type of Hstep with
    | _ = Ok ?st1 =>
        destruct (IH st1 Hall Hsl1)
          as (svs & sas & sl' & Hloop & Hsvs & Hsas & Hrows)
    end.
    cbn [HAN.encoded_sents_word HAN.sentence_alphas HAN.sentence_lengths] in *.
    exists (sv :: svs), (sa :: sas), sl'.
    rewrite Hloop, <- !app_assoc. simpl.
    split; [reflexivity|]. split; [now rewrite Hsvs|]. split; [now rewrite Hsas|].
    intros [|k] j Hk; simpl in Hk.
    + injection Hk as <-. exists sv, sa. auto.
    + now apply Hrows.
Qed.

Lemma omap_lookup {A : Type} (t : list (list A)) (b i : nat) :
  Forall (fun row => b < length row) t ->
  omap (fun row => row !! b) t !! i = t !! i ≫= (fun row => row !! b).
Proof.
  intros H; revert i; induction H as [|row t Hrow _ IH]; intros i; simpl;
    [reflexivity|].
  destruct (row !! b) as [x|] eqn:E.
  - destruct i as [|i]; simpl; [now rewrite E | apply IH].
  - apply lookup_ge_None in E. lia.
Qed.

Lemma transpose_lookup {A : Type} (t : list (list A)) (n b : nat) :
  t <> [] ->
  Forall (fun row => length row = n) t ->
  b < n ->
  torch.transpose t !! b = Some (omap (fun row => row !! b) t).
Proof.
  intros Hne Hall Hb. unfold torch.transpose.
  assert (Hhd : length (hd [] t) = n).
  { destruct t as [|row t]; [congruence|]. now apply Forall_cons in Hall as [? _]. }
  rewrite Hhd. change (map ?f ?l !! b) with ((f <$> l) !! b).
  rewrite list_lookup_fmap, lookup_seq_lt by exact Hb. reflexivity.
Qed.

(** The result of [encode_sentences_words], slot by slot. *)
Lemma encode_sentences_words_results (X : list (list (list Z))) :
  encodable self X = true ->
  exists svs alphas sl,
    HAN.encode_sentences_words self X = Ok (torch.transpose svs, alphas, sl)
    /\ length svs = length (hd [] X)
    /\ length alphas = length (hd [] X)
    /\ forall i, i < length (hd [] X) ->
         exists sv sa,
           svs !! i = Some sv /\ alphas !! i = Some sa
           /\ slot_result self X i sv sa.
Proof using word_batch_first.
  unfold encodable. intros H. apply andb_true_iff in H as [Hn Hall].
  apply Nat.ltb_lt in Hn. rewrite forallb_forall in Hall.
  apply List.Forall_forall in Hall.
  unfold HAN.encode_sentences_words, HAN.shape. cbv beta iota zeta.
  set (st0 := {| HAN.encoded_sents_word := [];
                 HAN.sentence_alphas := [];
                 HAN.sentence_lengths := replicate (length X) 0%Z |}).
  destruct (encode_loop_results X (seq 0 (length (hd [] X))) st0 Hall)
    as (svs & sas & sl & Hloop & Hsvs & Hsas & Hrows).
  { apply length_replicate. }
  rewrite Hloop. cbn [bind HAN.encoded_sents_word HAN.sentence_alphas
                      HAN.sentence_lengths app].
  rewrite length_seq in Hsvs, Hsas.
  exists svs, sas, sl. split.
  { unfold torch.cat_dim1. destruct svs; [simpl in Hsvs; lia | reflexivity]. }
  split; [exact Hsvs|]. split; [exact Hsas|].
  intros i Hi. apply (Hrows i i). now apply lookup_seq_lt.
Qed.

End SlotRows.

Section Placeholders.

Context {F : Type} {ops : ScalarOps F}.

Lemma slot_result_alpha_width (self : HAN.t F) (X : list (list (list Z)))
    (i : nat) (W : nat) :
  SCA.batch_first (HAN.word_attention self) = true ->
  slot_encodable (HAN.embed self) (HAN.slot X i) = true ->
  Forall (fun a => length a
                   = max_length (padding_idx (HAN.embed self)) (HAN.slot X i))
    (snd (SCA.forward (HAN.word_attention self)
            (map (encode_row self
                    (max_length (padding_idx (HAN.embed self)) (HAN.slot X i)) W)
                 (kept_rows (padding_idx (HAN.embed self)) (HAN.slot X i)))))
  /\ snd (SCA.forward (HAN.word_attention self)
            (map (encode_row self
                    (max_length (padding_idx (HAN.embed self)) (HAN.slot X i)) W)
                 (kept_rows (padding_idx (HAN.embed self)) (HAN.slot X i))))
     <> [].
Proof.
  intros Hbf Henc. apply slot_encodable_inv in Henc as [Hne _].
  set (pad := padding_idx (HAN.embed self)) in *.
  set (rows := HAN.slot X i) in *.
  set (we := map _ (kept_rows pad rows)).
  destruct (forward_lengths (HAN.word_attention self) we Hbf) as (_ & Hal & Hrows).
  assert (Hwe : Forall (fun r => length r = max_length pad rows) we).
  { unfold we. apply Forall_fmap, List.Forall_forall. intros row Hin.
    unfold compose. apply encode_row_length.
    apply get_seq_len_max. apply filter_In in Hin. tauto. }
  split.
  - clear -Hrows Hwe. induction Hrows as [|r al ? ? Hr _ IH]; constructor.
    + apply Forall_cons in Hwe as [Hr' _]. congruence.
    + apply IH. now apply Forall_cons in Hwe as [_ ?].
  - intros Hnil. rewrite Hnil in Hal. simpl in Hal. unfold we in Hal.
    rewrite length_map in Hal.
    destruct (kept_rows pad rows); [congruence | discriminate].
Qed.

(** X8: on a batch that can be encoded, wherever a document is empty at a
    slot (measured length 0), its row of that slot's attention array is the
    zero vector, as wide as the longest measured length of the slot, and its
    step for that slot in the accumulated sequence is a zero vector. *)
Theorem empty_rows_hold_zero_vectors :
  forall (self : HAN.t F) (X : list (list (list Z))),
    encodable self X = true ->
    SCA.batch_first (HAN.word_attention self) = true ->
    exists enc alphas sl,
      HAN.encode_sentences_words self X = Ok (enc, alphas, sl)
      /\ forall b doc i,
           X !! b = Some doc ->
           i < length (hd [] X) ->
           kept (padding_idx (HAN.embed self)) (nth i doc []) = false ->
           (exists alpha,
              alphas !! i = Some alpha
              /\ alpha !! b
                 = Some (zeros (max_length (padding_idx (HAN.embed self))
                                           (HAN.slot X i))))
           /\ (exists steps v,
                 enc !! b = Some steps /\ steps !! i = Some v
                 /\ Forall (fun x => x = fzero) v).
Proof.
  intros self X Henc Hbf.
  destruct (encode_sentences_words_results self Hbf X Henc)
    as (svs & alphas & sl & Hok & Hsvs & Hal & Hrows).
  exists (torch.transpose svs), alphas, sl. split; [exact Hok|].
  intros b doc i Hb Hi Hk.
  assert (HbX : b < length X) by now apply lookup_lt_Some in Hb.
  assert (Hslot : slot_encodable (HAN.embed self) (HAN.slot X i) = true).
  { unfold encodable in Henc. apply andb_true_iff in Henc as [_ Hall].
    rewrite forallb_forall in Hall. apply Hall, in_seq. lia. }
  assert (Hni : ~ In b (torch.nonzero
                          (get_sequence_lengths (HAN.slot X i)
                             (padding_idx (HAN.embed self))))).
  { intros Hin. apply (nonzero_slot_elem _ X i b doc Hb) in Hin. congruence. }
  destruct (Hrows i Hi) as (sv & sa & Hsv & Hsa & W & _ & _ & _ & _ & Hz).
  cbv zeta in Hz. destruct (Hz b HbX Hni) as [Hzv Hza].
  destruct (slot_result_alpha_width self X i W Hbf Hslot) as [Hw Hne].
  split.
  - exists sa. split; [exact Hsa|]. rewrite Hza. do 2 f_equal.
    destruct (snd (SCA.forward _ _)) as [|a0 al]; [congruence|].
    now apply Forall_cons in Hw as [? _].
  - assert (Hall : Forall (fun s => length s = length X) svs).
    { apply Forall_lookup. intros k s Hks.
      assert (Hk' : k < length (hd [] X))
        by (rewrite <- Hsvs; now apply lookup_lt_Some in Hks).
      destruct (Hrows k Hk') as (s' & _ & Hs' & _ & _ & Hlen & _).
      congruence. }
    assert (Hne' : svs <> []) by (intros ->; simpl in Hsvs; lia).
    exists (omap (fun row => row !! b) svs). eexists.
    split; [exact (transpose_lookup svs (length X) b Hne' Hall HbX)|].
    split.
    + rewrite omap_lookup.
      * rewrite Hsv. simpl. exact Hzv.
      * eapply Forall_impl; [exact Hall|]. simpl. intros s ->. exact HbX.
    + unfold zeros. apply Forall_replicate. reflexivity.
Qed.

End Placeholders.

Lemma empty_rows_hold_zero_vectors_witness :
  exists enc alphas sl,
    HAN.encode_sentences_words example_net batch_AB = Ok (enc, alphas, sl)
    /\ forall b doc i,
         batch_AB !! b = Some doc ->
         i < length (hd [] batch_AB) ->
         kept (padding_idx (HAN.embed example_net)) (nth i doc []) = false ->
         (exists alpha,
            alphas !! i = Some alpha
            /\ alpha !! b
               = Some (zeros (max_length (padding_idx (HAN.embed example_net))
                                         (HAN.slot batch_AB i))))
         /\ (exists steps v,
               enc !! b = Some steps /\ steps !! i = Some v
               /\ Forall (fun x => x = fzero) v).
Proof.
  apply (empty_rows_hold_zero_vectors example_net batch_AB); reflexivity.
Defined.

Section WeightsReal.

Local Open Scope R_scope.

Lemma vsum_R_app (a b : list R) : vsum (a ++ b) = vsum a + vsum b.
Proof. unfold vsum. induction a as [|x a IH]; simpl in *; lra. Qed.

Lemma vsum_R_pos (a : list R) :
  a <> [] -> Forall (fun w => 0 < w) a -> 0 < vsum a.
Proof.
  unfold vsum. intros Hne H. destruct H as [|x a Hx Ha]; [congruence|]. clear Hne.
  simpl. induction Ha as [|y a Hy _ IH]; simpl in *; lra.
Qed.

(** X9: on a batch that can be encoded, the word-level weights of a kept
    row are one per step up to the longest measured length [L] of its slot;
    they are all positive and sum to 1.  Nothing masks the padded steps: a
    row shorter than [L] gives part of its weight to them, so the weights
    over its own words sum to less than 1 (over the reals). *)
Theorem kept_row_weights_include_padding :
  forall (self : HAN.t R) (X : list (list (list Z))),
    encodable self X = true ->
    SCA.batch_first (HAN.word_attention self) = true ->
    exists enc alphas sl,
      HAN.encode_sentences_words self X = Ok (enc, alphas, sl)
      /\ forall b doc i,
           X !! b = Some doc ->
           (i < length (hd [] X))%nat ->
           kept (padding_idx (HAN.embed self)) (nth i doc []) = true ->
           exists alpha w,
             alphas !! i = Some alpha /\ alpha !! b = Some w
             /\ length w = max_length (padding_idx (HAN.embed self)) (HAN.slot X i)
             /\ Forall (fun x => 0 < x) w
             /\ vsum w = 1
             /\ ((get_seq_len (padding_idx (HAN.embed self)) (nth i doc [])
                  < max_length (padding_idx (HAN.embed self)) (HAN.slot X i))%nat ->
                 vsum (take (get_seq_len (padding_idx (HAN.embed self))
                                         (nth i doc [])) w) < 1).
Proof.
  intros self X Henc Hbf.
  destruct (encode_sentences_words_results self Hbf X Henc)
    as (svs & alphas & sl & Hok & Hsvs & Hal & Hrows).
  exists (torch.transpose svs), alphas, sl. split; [exact Hok|].
  intros b doc i Hb Hi Hk.
  set (pad := padding_idx (HAN.embed self)) in *.
  assert (Hslot : slot_encodable (HAN.embed self) (HAN.slot X i) = true).
  { unfold encodable in Henc. apply andb_true_iff in Henc as [_ Hall].
    rewrite forallb_forall in Hall. apply Hall, in_seq. lia. }
  assert (Hin : In b (torch.nonzero (get_sequence_lengths (HAN.slot X i) pad)))
    by now apply (nonzero_slot_elem pad X i b doc Hb).
  destruct (Hrows i Hi) as (sv & sa & Hsv & Hsa & W & _ & _ & _ & Hsel & _).
  cbv zeta in Hsel. fold pad in Hsel.
  destruct (slot_result_alpha_width self X i W Hbf Hslot) as [Hw _].
  fold pad in Hw.
  apply index_select_Forall2 in Hsel.
  apply list_elem_of_In, list_elem_of_lookup in Hin as [j Hj].
  destruct (Forall2_lookup_l _ _ _ _ _ Hsel Hj) as (w & Hwj & Hsab).
  simpl in Hsab. exists sa, w. split; [exact Hsa|]. split; [exact Hsab|].
  assert (Hlen : length w = max_length pad (HAN.slot X i)).
  { rewrite Forall_lookup in Hw. exact (Hw j w Hwj). }
  assert (Hpos : (0 < max_length pad (HAN.slot X i))%nat).
  { unfold kept in Hk. apply Nat.ltb_lt in Hk.
    pose proof (get_seq_len_max pad (HAN.slot X i) (nth i doc [])) as Hmax.
    assert (Hrow : In (nth i doc []) (HAN.slot X i)).
    { apply list_elem_of_In. eapply list_elem_of_lookup_2.
      exact (slot_lookup X i b doc Hb). }
    specialize (Hmax Hrow). lia. }
  rewrite forward_alpha, Hbf in Hwj.
  change (map ?f ?l !! j) with ((f <$> l) !! j) in Hwj.
  rewrite list_lookup_fmap in Hwj.
  apply fmap_Some in Hwj as (row & _ & Hwj).
  assert (Hposw : Forall (fun x => 0 < x) w) by (rewrite Hwj; apply softmax_pos).
  assert (Hsum : vsum w = 1).
  { rewrite Hwj. apply softmax_sum. intros Hnil.
    rewrite Hwj, softmax_length, Hnil in Hlen. simpl in Hlen. lia. }
  split; [exact Hlen|]. split; [exact Hposw|]. split; [exact Hsum|].
  intros Hshort.
  set (n := get_seq_len pad (nth i doc [])) in *.
  rewrite <- (take_drop n w), vsum_R_app in Hsum.
  assert (Hd : 0 < vsum (drop n w)).
  { apply vsum_R_pos.
    - intros Hnil. apply (f_equal length) in Hnil.
      rewrite length_drop in Hnil. simpl in Hnil. lia.
    - now apply Forall_drop. }
  lra.
Qed.

End WeightsReal.

Lemma kept_row_weights_include_padding_witness :
  exists enc alphas sl,
    HAN.encode_sentences_words example_net batch_AB = Ok (enc, alphas, sl)
    /\ forall b doc i,
         batch_AB !! b = Some doc ->
         i < length (hd [] batch_AB) ->
         kept (padding_idx (HAN.embed example_net)) (nth i doc []) = true ->
         exists alpha w,
           alphas !! i = Some alpha /\ alpha !! b = Some w
           /\ length w = max_length (padding_idx (HAN.embed example_net))
                                    (HAN.slot batch_AB i)
           /\ Forall (fun x => (0 < x)%R) w
           /\ vsum w = 1%R
           /\ (get_seq_len (padding_idx (HAN.embed example_net)) (nth i doc [])
               < max_length (padding_idx (HAN.embed example_net))
                            (HAN.slot batch_AB i) ->
               (vsum (take (get_seq_len (padding_idx (HAN.embed example_net))
                                        (nth i doc [])) w) < 1)%R).
Proof.
  apply (kept_row_weights_include_padding example_net batch_AB); reflexivity.
Defined.

(** ** The outputs of the forward pass *)

Section ForwardShape.

Context {F : Type} {ops : ScalarOps F}.

Lemma linear_length (l : Linear F) (x : vec F) :
  length (lin_bias l) = length (lin_weight l) ->
  length (linear l x) = length (lin_weight l).
Proof.
  intros H. unfold linear, vadd. rewrite length_zip_with, length_map. lia.
Qed.

(** X10: on a batch that can be encoded the forward pass returns one logit
    vector per document, with one score per row of the output layer, and
    one row of document-level weights per document, with one weight per
    sentence slot. *)
Theorem forward_output_shape :
  forall (self : HAN.t F) (X : list (list (list Z))),
    encodable self X = true ->
    SCA.batch_first (HAN.sentence_attention self) = true ->
    length (lin_bias (HAN.out self)) = length (lin_weight (HAN.out self)) ->
    exists out alphas document_alpha,
      HAN.forward self X = Ok (out, alphas, document_alpha)
      /\ length out = length X
      /\ Forall (fun logits => length logits = length (lin_weight (HAN.out self)))
                out
      /\ length document_alpha = length X
      /\ Forall (fun weights => length weights = length (hd [] X)) document_alpha.
Proof.
  intros self X Henc Hbf Hout.
  destruct (encode_sentences_words_ok self X Henc)
    as (enc & alphas & sl & Hok & Hlen & Hsteps & _).
  do 3 eexists. split; [exact (forward_of_encode self X enc alphas sl Hok)|].
  destruct (forward_lengths (HAN.sentence_attention self)
              (map (gru_sequence (HAN.sentence_encoder self)) enc) Hbf)
    as (Hv & Ha & Hrows).
  rewrite length_map in Hv, Ha.
  split; [rewrite length_map; congruence|]. split; [|split; [congruence|]].
  - apply Forall_fmap, List.Forall_forall. intros v _. unfold compose.
    now apply linear_length.
  - apply Forall2_fmap_l in Hrows.
    clear -Hrows Hsteps. induction Hrows as [|r a ? ? Hr _ IH]; constructor.
    + apply Forall_cons in Hsteps as [Hs _]. unfold compose in Hr.
      rewrite gru_sequence_length in Hr. congruence.
    + apply IH. now apply Forall_cons in Hsteps as [_ ?].
Qed.

End ForwardShape.

Lemma forward_output_shape_witness :
  exists out alphas document_alpha,
    HAN.forward example_net batch_AB = Ok (out, alphas, document_alpha)
    /\ length out = length batch_AB
    /\ Forall (fun logits => length logits
                             = length (lin_weight (HAN.out example_net))) out
    /\ length document_alpha = length batch_AB
    /\ Forall (fun weights => length weights = length (hd [] batch_AB))
              document_alpha.
Proof.
  apply (forward_output_shape example_net batch_AB); reflexivity.
Defined.

Section DocumentWeights.

Local Open Scope R_scope.

(** X11: on a batch that can be encoded, the document-level weights of
    every document are positive and sum to 1 over all the sentence slots;
    a slot at which the document is empty, whose step in the accumulated
    sequence is a zero placeholder, still receives a positive weight (over
    the reals). *)
Theorem document_weights_cover_every_slot :
  forall (self : HAN.t R) (X : list (list (list Z))),
    encodable self X = true ->
    SCA.batch_first (HAN.sentence_attention self) = true ->
    exists out alphas document_alpha,
      HAN.forward self X = Ok (out, alphas, document_alpha)
      /\ forall b doc,
           X !! b = Some doc ->
           exists w,
             document_alpha !! b = Some w
             /\ length w = length (hd [] X)
             /\ Forall (fun x => 0 < x) w
             /\ vsum w = 1.
Proof.
  intros self X Henc Hbf.
  pose proof Henc as Hn. unfold encodable in Hn.
  apply andb_true_iff in Hn as [Hn _]. apply Nat.ltb_lt in Hn.
  destruct (encode_sentences_words_ok self X Henc)
    as (enc & alphas & sl & Hok & Hlen & Hsteps & _).
  do 3 eexists. split; [exact (forward_of_encode self X enc alphas sl Hok)|].
  intros b doc Hb.
  assert (Hlt : (b < length enc)%nat)
    by (rewrite Hlen; now apply lookup_lt_Some in Hb).
  apply lookup_lt_is_Some_2 in Hlt as [steps Hs].
  rewrite forward_alpha, Hbf.
  change (map ?f ?l !! b) with ((f <$> l) !! b). rewrite list_lookup_fmap.
  change (map ?f enc !! b) with ((f <$> enc) !! b). rewrite list_lookup_fmap, Hs.
  simpl. eexists. split; [reflexivity|].
  rewrite Forall_lookup in Hsteps. specialize (Hsteps b steps Hs).
  split; [now rewrite softmax_length, length_map, gru_sequence_length|].
  split; [apply softmax_pos|]. apply softmax_sum. intros Hnil.
  apply (f_equal length) in Hnil.
  rewrite length_map, gru_sequence_length in Hnil. simpl in Hnil. lia.
Qed.

End DocumentWeights.

Lemma document_weights_cover_every_slot_witness :
  exists out alphas document_alpha,
    HAN.forward example_net batch_AB = Ok (out, alphas, document_alpha)
    /\ forall b doc,
         batch_AB !! b = Some doc ->
         exists w,
           document_alpha !! b = Some w
           /\ length w = length (hd [] batch_AB)
           /\ Forall (fun x => (0 < x)%R) w
           /\ vsum w = 1%R.
Proof.
  apply (document_weights_cover_every_slot example_net batch_AB); reflexivity.
Defined.

(** ** Which tokens the forward pass reads *)

Section TokensRead.

Context {F : Type} {ops : ScalarOps F}.
Variable self : HAN.t F.

(** Two rows are the same for the encoder when they are equal or both
    dropped. *)
Lemma same_kept_rows (pad : Z) (rows rows' : list (list Z)) :
  Forall2 (fun r r' => r = r' \/ (kept pad r = false /\ kept pad r' = false))
          rows rows' ->
  kept_rows pad rows = kept_rows pad rows'
  /\ forall s, torch.nonzero_from s (get_sequence_lengths rows pad)
               = torch.nonzero_from s (get_sequence_lengths rows' pad).
Proof.
  unfold kept_rows, get_sequence_lengths.
  induction 1 as [|r r' rows rows' Hr _ [IHk IHn]]; simpl; [auto|].
  destruct Hr as [<-|[Hk Hk']].
  - split; [now rewrite IHk|]. intros s. now rewrite IHn.
  - rewrite Hk, Hk'. split; [exact IHk|]. intros s.
    unfold kept in Hk, Hk'. apply Nat.ltb_ge in Hk, Hk'.
    replace (get_seq_len pad r) with 0 by lia.
    replace (get_seq_len pad r') with 0 by lia. simpl. apply IHn.
Qed.

Lemma encode_words_same_kept (rows rows' : list (list Z)) :
  Forall2 (fun r r' => r = r'
                       \/ (kept (padding_idx (HAN.embed self)) r = false
                           /\ kept (padding_idx (HAN.embed self)) r' = false))
          rows rows' ->
  HAN.encode_words self rows = HAN.encode_words self rows'.
Proof.
  intros Hrel. destruct (same_kept_rows _ rows rows' Hrel) as [Hk Hn].
  set (pad := padding_idx (HAN.embed self)) in *.
  assert (Hl : forall rs,
             torch.index_select (get_sequence_lengths rs pad)
               (torch.nonzero (get_sequence_lengths rs pad))
             = Ok (map (get_seq_len pad) (kept_rows pad rs))).
  { intros rs. apply index_select_map, kept_rows_select. }
  unfold HAN.encode_words, get_nonzero_sequences. fold pad.
  rewrite !kept_rows_select. cbn [bind]. rewrite !Hl. cbn [bind].
  unfold torch.nonzero. now rewrite Hk, (Hn 0).
Qed.

Lemma encode_loop_same_kept (X X' : list (list (list Z))) (batch_size : nat)
    (slots : list nat) :
  (forall i, HAN.encode_words self (HAN.slot X i)
             = HAN.encode_words self (HAN.slot X' i)) ->
  forall st, HAN.encode_loop self X batch_size st slots
             = HAN.encode_loop self X' batch_size st slots.
Proof.
  intros Hw. induction slots as [|i slots IH]; intros st; simpl; [reflexivity|].
  unfold HAN.encode_slot. rewrite (Hw i).
  destruct (bind (HAN.encode_words self (HAN.slot X' i)) _); simpl; auto.
Qed.

(** X12: the forward pass does not read the tokens of dropped rows.  Two
    batches of the same shape whose sentences are pairwise equal or both of
    measured length 0 give the same result, values and exceptions alike;
    what stands behind a leading padding value, inside the embedding table
    or not, has no effect. *)
Theorem forward_ignores_dropped_rows :
  forall (X X' : list (list (list Z))),
    Forall2 (Forall2 (fun r r' =>
               r = r'
               \/ (kept (padding_idx (HAN.embed self)) r = false
                   /\ kept (padding_idx (HAN.embed self)) r' = false)))
            X X' ->
    HAN.encode_sentences_words self X = HAN.encode_sentences_words self X'
    /\ HAN.forward self X = HAN.forward self X'.
Proof.
  intros X X' Hrel.
  assert (Henc : HAN.encode_sentences_words self X
                 = HAN.encode_sentences_words self X').
  { unfold HAN.encode_sentences_words, HAN.shape. cbv beta iota zeta.
    assert (HB : length X = length X') by now apply Forall2_length in Hrel.
    assert (HS : length (hd [] X) = length (hd [] X')).
    { destruct Hrel as [|d d' ? ? Hd _]; [reflexivity|]. simpl.
      now apply Forall2_length in Hd. }
    rewrite HB, HS.
    rewrite (encode_loop_same_kept X X'); [reflexivity|].
    intros i. apply encode_words_same_kept. unfold HAN.slot.
    apply Forall2_fmap. eapply Forall2_impl; [exact Hrel|].
    intros d d' Hd. simpl. clear -Hd. revert i.
    induction Hd as [|r r' d d' Hr _ IH]; intros [|i]; simpl; auto. }
  split; [exact Henc|]. unfold HAN.forward. now rewrite Henc.
Qed.

(** X13: a token outside the embedding table in a kept row makes the
    forward pass raise, wherever it stands in the row: the whole kept row is
    embedded, also the positions after its first padding value that the
    encoder never runs over. *)
Theorem forward_rejects_unknown_token_in_kept_row :
  forall (X : list (list (list Z))) (b i : nat) (doc : list (list Z))
         (token : Z),
    X !! b = Some doc ->
    i < length (hd [] X) ->
    kept (padding_idx (HAN.embed self)) (nth i doc []) = true ->
    In token (nth i doc []) ->
    in_vocab (HAN.embed self) token = false ->
    is_ok (HAN.encode_sentences_words self X) = false
    /\ is_ok (HAN.forward self X) = false.
Proof.
  intros X b i doc token Hb Hi Hk Hin Hv.
  rewrite forward_returns, encode_sentences_words_returns.
  assert (He : encodable self X = false); [|auto].
  unfold encodable. apply andb_false_iff. right.
  apply not_true_is_false. intros Hall. rewrite forallb_forall in Hall.
  assert (Hs : slot_encodable (HAN.embed self) (HAN.slot X i) = true)
    by (apply Hall, in_seq; lia).
  unfold slot_encodable in Hs. apply andb_true_iff in Hs as [_ Hs].
  rewrite forallb_forall in Hs.
  assert (Hrow : In (nth i doc []) (HAN.slot X i)).
  { apply list_elem_of_In. eapply list_elem_of_lookup_2.
    exact (slot_lookup X i b doc Hb). }
  specialize (Hs _ Hrow). rewrite Hk in Hs. simpl in Hs.
  rewrite forallb_forall in Hs. specialize (Hs token Hin). congruence.
Qed.

End TokensRead.

Lemma forward_ignores_dropped_rows_witness :
  HAN.encode_sentences_words example_net [[[5; 7]; [3; 1]]; [[4; 1]; [1; 1]]]%Z
  = HAN.encode_sentences_words example_net [[[5; 7]; [3; 1]]; [[4; 1]; [1; 99]]]%Z
  /\ HAN.forward example_net [[[5; 7]; [3; 1]]; [[4; 1]; [1; 1]]]%Z
     = HAN.forward example_net [[[5; 7]; [3; 1]]; [[4; 1]; [1; 99]]]%Z.
Proof.
  apply (forward_ignores_dropped_rows example_net).
  repeat constructor; right; split; reflexivity.
Defined.

Lemma forward_rejects_unknown_token_in_kept_row_witness :
  is_ok (HAN.encode_sentences_words example_net [[[5; 1; 99]]]%Z) = false
  /\ is_ok (HAN.forward example_net [[[5; 1; 99]]]%Z) = false.
Proof.
  apply (forward_rejects_unknown_token_in_kept_row example_net
           [[[5; 1; 99]]]%Z 0 0 [[5; 1; 99]]%Z 99%Z).
  - reflexivity.
  - simpl. lia.
  - reflexivity.
  - simpl. auto.
  - reflexivity.
Defined.
